(** * Gosh-Fetch download engine (gosh-dl): a shallow embedding in Rocq

    The development follows the Rust sources of the [gosh-dl] crate:
    - [http/segment.rs]: segment partitioning and the per-segment task;
    - [torrent/piece.rs]: pending pieces, rarest-first selection,
      verification and path-validated writes;
    - [engine.rs]: resume and cancel of the coordinator, and
      [resume_all] of the application's [engine_adapter.rs];
    - [storage/sqlite.rs]: the [downloads] and [segments] tables.

    Unsigned machine integers are [Z] values with their wrap-around written
    out; maps are stdpp [gmap]s; file system effects are traces of the
    operations performed. *)

From Stdlib Require Import ZArith Lia Ascii Sorted.
From stdpp Require Import base list gmap strings.

Open Scope Z_scope.

(** ** Machine integers *)

Definition u64_modulus : Z := 2 ^ 64.

(** Wrap-around of a [u64] arithmetic result (release-mode Rust). *)
Definition wrap64 (x : Z) : Z := x mod u64_modulus.

(** ** http/segment.rs *)
Module Segmented.

(** [storage::Segment], as built by [Segment::new(index, start, end)]:
    nothing downloaded yet. *)
Record Segment := mkSegment {
  index : Z;
  start : Z;
  seg_end : Z;      (* the field [end] of the source; inclusive *)
  downloaded : Z
}.

Definition Segment_new (i s e : Z) : Segment := mkSegment i s e 0.

(** [calculate_segment_count]; [usize] and [u64] are both 64-bit. *)
Definition calculate_segment_count
    (total_size max_connections min_segment_size : Z) : Z :=
  if total_size =? 0 then 1
  else
    let max_segments_by_size := total_size / min_segment_size in
    let num_segments := Z.min max_connections (Z.max max_segments_by_size 1) in
    Z.max num_segments 1.

(** The segment built at loop iteration [i] of [init_segments]. *)
Definition init_segment (total_size num_segments segment_size i : Z) : Segment :=
  let start := wrap64 (i * segment_size) in
  let end_ :=
    if i =? num_segments - 1 then wrap64 (total_size - 1)
    else wrap64 ((i + 1) * segment_size - 1) in
  Segment_new i start end_.

(** [SegmentedDownload::init_segments]: the value stored in
    [self.segments]. *)
Definition init_segments
    (total_size max_connections min_segment_size : Z) : list Segment :=
  let num_segments :=
    calculate_segment_count total_size max_connections min_segment_size in
  let segment_size := total_size / num_segments in
  map (fun i => init_segment total_size num_segments segment_size (Z.of_nat i))
    (seq 0 (Z.to_nat num_segments)).

End Segmented.


(** ** error.rs (the variants the modelled code produces) *)
Module Error.

Inductive NetworkErrorKind :=
  | Timeout | Dns | Tls | HttpStatus (code : Z) | NetOther.

Inductive StorageErrorKind := Io | AllocFailed | PermissionDenied.

Inductive ProtocolErrorKind := InvalidTorrent | PeerProtocol | HandshakeFailed.

(** [EngineError]; the message strings are left out. *)
Inductive EngineError :=
  | Network (k : NetworkErrorKind)
  | Storage (k : StorageErrorKind)
  | Protocol (k : ProtocolErrorKind)
  | InvalidState (action : string)
  | NotFound
  | Internal
  | Database
  | Shutdown.

Inductive result (A : Type) :=
  | Ok (a : A)
  | Err (e : EngineError).
Arguments Ok {A} a.
Arguments Err {A} e.

End Error.
Import Error.

(** ** The segment task and [SegmentedDownload::start] *)
Module SegmentTask.
Import Segmented.

(** [reqwest::StatusCode::is_success]: a 2xx status. *)
Definition is_success (status : Z) : bool := (200 <=? status) && (status <=? 299).

Definition PARTIAL_CONTENT : Z := 206.

(** One item yielded by [response.bytes_stream()]. *)
Inductive Chunk :=
  | ChunkOk (bytes : list Z)
  | ChunkErr.

(** What [request.send().await] produces: a transport error, or a status
    and the items of the body stream up to the point where the loop stops
    (end of stream or the cancellation branch of the [select!]). *)
Inductive Response :=
  | SendFailed
  | Resp (status : Z) (body : list Chunk).

(** A positioned write [(offset, bytes)] on the shared [.part] file. *)
Definition Write := (Z * list Z)%type.

(** The streaming loop: each chunk is written at
    [start + segment_bytes]; a stream error ends the task with a network
    error. Returns the task result and the writes performed. *)
Fixpoint stream_loop (start segment_bytes : Z) (body : list Chunk)
    : result unit * list Write :=
  match body with
  | [] => (Ok tt, [])
  | ChunkErr :: _ => (Err (Network NetOther), [])
  | ChunkOk c :: rest =>
      let '(r, ws) := stream_loop start (wrap64 (segment_bytes + Z.of_nat (length c))) rest in
      (r, (wrap64 (start + segment_bytes), c) :: ws)
  end.

(** The body of the task spawned for one segment in
    [SegmentedDownload::start] (after the permit is acquired). *)
Definition segment_task (start end_ already_downloaded : Z)
    (cancelled paused : bool) (resp : Response) : result unit * list Write :=
  if cancelled then (Ok tt, [])
  else if paused then (Ok tt, [])
  else
    let resume_start := wrap64 (start + already_downloaded) in
    if end_ <? resume_start then (Ok tt, [])
    else
      match resp with
      | SendFailed => (Err (Network NetOther), [])
      | Resp status body =>
          if negb (is_success status) && negb (status =? PARTIAL_CONTENT) then
            (Err (Network (HttpStatus status)), [])
          else stream_loop start already_downloaded body
      end.

(** Modelled from the spec: [Segment::is_complete] of the storage module,
    which is not among the sources ("Completed => downloaded == end-start+1"). *)
Definition seg_is_complete (s : Segment) : bool :=
  seg_end s - start s + 1 <=? downloaded s.

(** The environment seen by one spawned task: cancellation and pause flags
    at its start, and the response it receives. *)
Record TaskEnv := mkTaskEnv { env_cancelled : bool; env_paused : bool; env_resp : Response }.

Record SegmentedDownload := mkSD {
  sd_total_size : Z;
  sd_segments : list Segment;
  sd_downloaded : Z   (* [state.downloaded] *)
}.

Definition written_bytes (ws : list Write) : Z :=
  fold_right (fun w acc => Z.of_nat (length w.2) + acc) 0 ws.

(** [SegmentedDownload::start]. [prepare_ok], [flush_ok] and [finalize_ok]
    are the outcomes of [prepare_file], of the flush/sync and of
    [finalize]; [env] gives each spawned task its environment. Returns the
    result, the tasks' own results, and the number of HTTP requests sent
    for each pending segment. *)
Definition start_download (sd : SegmentedDownload) (prepare_ok flush_ok finalize_ok : bool)
    (env : Segment -> TaskEnv) : result unit * list (result unit) * list nat :=
  if negb prepare_ok then (Err (Storage Io), [], [])
  else
    let pending := filter (fun s => negb (seg_is_complete s)) (sd_segments sd) in
    let run s :=
      let e := env s in
      segment_task (start s) (seg_end s) (downloaded s)
        (env_cancelled e) (env_paused e) (env_resp e) in
    let outcomes := map run pending in
    (* one request per task that got past the cancellation/pause/complete checks *)
    let requests := map (fun s =>
      let e := env s in
      if env_cancelled e || env_paused e
         || (seg_end s <? wrap64 (start s + downloaded s)) then 0%nat else 1%nat) pending in
    (* [handle.await] only reports a panic: the tasks' results are dropped *)
    let total_downloaded :=
      wrap64 (sd_downloaded sd + fold_right (fun o acc => written_bytes o.2 + acc) 0 outcomes) in
    if negb flush_ok then (Err (Storage Io), map fst outcomes, requests)
    else if sd_total_size sd <=? total_downloaded then
      (if finalize_ok then Ok tt else Err (Storage Io), map fst outcomes, requests)
    else (Ok tt, map fst outcomes, requests).

End SegmentTask.


(** ** std::path on a Unix target *)
Module Path.

(** [std::path::Component]. [Prefix] is produced on Windows only. *)
Inductive Component :=
  | Prefix (s : string)
  | RootDir
  | CurDir
  | ParentDir
  | Normal (s : string).

#[global] Instance Component_eq_dec : EqDecision Component.
Proof. solve_decision. Defined.

(** Split a string at every ['/']. *)
Fixpoint split_slash_aux (cur : string) (s : string) : list string :=
  match s with
  | EmptyString => [cur]
  | String c rest =>
      if Ascii.eqb c "/"%char then cur :: split_slash_aux EmptyString rest
      else split_slash_aux (cur +:+ String c EmptyString) rest
  end.

Definition split_slash (s : string) : list string := split_slash_aux EmptyString s.

Definition body_component (seg : string) : option Component :=
  if String.eqb seg "" then None
  else if String.eqb seg "." then None
  else if String.eqb seg ".." then Some ParentDir
  else Some (Normal seg).

(** [Path::components] on Unix: a leading ['/'] gives [RootDir], a leading
    ["."] segment gives [CurDir], empty and other ["."] segments are
    skipped, [".."] gives [ParentDir]. *)
Definition components (p : string) : list Component :=
  match split_slash p with
  | [] => []
  | first :: rest =>
      if String.eqb first "" then
        (if String.eqb p "" then [] else [RootDir]) ++ omap body_component rest
      else if String.eqb first "." then CurDir :: omap body_component rest
      else omap body_component (first :: rest)
  end.

(** A path, kept as its list of components. *)
Definition PathBuf := list Component.

Definition has_root (p : PathBuf) : bool :=
  match p with
  | RootDir :: _ | Prefix _ :: _ => true
  | _ => false
  end.

(** [Path::join] / [PathBuf::push]: an absolute argument replaces the
    base. *)
Definition join (base : PathBuf) (p : PathBuf) : PathBuf :=
  if has_root p then p else base ++ p.

(** [Path::parent] of a path given by components. *)
Definition parent (p : PathBuf) : option PathBuf :=
  match p with
  | [] => None
  | _ => Some (removelast p)
  end.

End Path.


(** ** torrent/piece.rs: [PendingPiece] *)
Module Pending.

(** Modelled from the spec: [peer::BLOCK_SIZE] (peer.rs is not among the
    sources), "a protocol constant (16 KiB)". *)
Definition BLOCK_SIZE : Z := 16384.

(** [u64::div_ceil]. *)
Definition div_ceil (a b : Z) : Z := (a + b - 1) / b.

(** [PendingPiece]; [started_at] (an [Instant]) is left out. *)
Record PendingPiece := mkPendingPiece {
  pp_index : Z;                          (* u32 *)
  pp_length : Z;                         (* u64 *)
  blocks : list (option (list Z));
  block_size : Z;                        (* u32 *)
  blocks_received : nat;                 (* usize *)
  requested_blocks : gmap Z nat          (* block index -> peer *)
}.

(** [PendingPiece::new]. *)
Definition PendingPiece_new (index piece_length : Z) : PendingPiece :=
  let num_blocks := Z.to_nat (div_ceil piece_length BLOCK_SIZE) in
  mkPendingPiece index piece_length (replicate num_blocks None) BLOCK_SIZE 0 ∅.

(** [PendingPiece::add_block]: the returned flag and the piece after the
    call. *)
Definition add_block (p : PendingPiece) (offset : Z) (data : list Z)
    : bool * PendingPiece :=
  let block_index := Z.to_nat (offset / block_size p) in
  if (length (blocks p) <=? block_index)%nat then (false, p)
  else if negb (offset mod block_size p =? 0) then (false, p)
  else
    let expected_size :=
      if (block_index =? length (blocks p) - 1)%nat then
        Z.min (wrap64 (pp_length p - offset)) (block_size p)
      else block_size p in
    if negb (Z.of_nat (length data) =? expected_size) then (false, p)
    else
      let received :=
        match blocks p !! block_index with
        | Some None => S (blocks_received p)
        | _ => blocks_received p
        end in
      (true, mkPendingPiece (pp_index p) (pp_length p)
               (<[block_index := Some data]> (blocks p)) (block_size p) received
               (delete (Z.of_nat block_index) (requested_blocks p))).

(** [PendingPiece::is_complete]. *)
Definition is_complete (p : PendingPiece) : bool :=
  (blocks_received p =? length (blocks p))%nat.

Fixpoint concat_blocks (bs : list (option (list Z))) : option (list Z) :=
  match bs with
  | [] => Some []
  | None :: _ => None
  | Some b :: rest => d ← concat_blocks rest; Some (b ++ d)
  end.

(** [PendingPiece::data]. *)
Definition data (p : PendingPiece) : option (list Z) :=
  if negb (is_complete p) then None
  else d ← concat_blocks (blocks p); Some (take (Z.to_nat (pp_length p)) d).

End Pending.


(** ** torrent/metainfo.rs *)
Module Meta.
Import Path.

Record FileInfo := mkFileInfo { fi_path : string; fi_length : Z }.

(** [Info], reduced to the fields the piece engine reads. *)
Record Info := mkInfo {
  name : string;
  is_single_file : bool;
  files : list FileInfo;
  piece_length_field : Z;
  pieces : list (list Z)       (* SHA-1 hashes *)
}.

(** Modelled from the spec ([Info.total_size = sum of file.length];
    metainfo.rs is not among the sources). *)
Definition total_size (i : Info) : Z :=
  fold_right (fun f acc => fi_length f + acc) 0 (files i).

(** Modelled from the spec: [Metainfo::piece_length], "piece i covers
    [i * piece_length, min((i+1) * piece_length, total_size))". *)
Definition piece_length (i : Info) (index : nat) : option Z :=
  if (index <? length (pieces i))%nat then
    Some (Z.min (piece_length_field i)
                (total_size i - Z.of_nat index * piece_length_field i))
  else None.

(** Modelled from the spec: [Metainfo::piece_hash]. *)
Definition piece_hash (i : Info) (index : nat) : option (list Z) := pieces i !! index.

(** Slices [(file_idx, file_offset, length)] of the files, laid out one
    after the other from [file_start], that meet [[ps, pe)]. *)
Fixpoint slices_from (fs : list FileInfo) (file_idx : nat) (file_start ps pe : Z)
    : list (nat * Z * Z) :=
  match fs with
  | [] => []
  | f :: rest =>
      let lo := Z.max ps file_start in
      let hi := Z.min pe (file_start + fi_length f) in
      let here := if lo <? hi then [(file_idx, lo - file_start, hi - lo)] else [] in
      here ++ slices_from rest (S file_idx) (file_start + fi_length f) ps pe
  end.

(** Modelled from the spec: [Metainfo::files_for_piece], "laid out over
    the concatenation of files in declaration order". *)
Definition files_for_piece (i : Info) (index : nat) : list (nat * Z * Z) :=
  match piece_length i index with
  | None => []
  | Some len =>
      let ps := Z.of_nat index * piece_length_field i in
      slices_from (files i) 0 0 ps (ps + len)
  end.

End Meta.

(** ** torrent/piece.rs: [PieceManager] *)
Module Manager.
Import Path Meta Pending.

(** File-system operations, in the order performed. *)
Inductive Effect :=
  | CreateDirAll (p : PathBuf)
  | OpenWrite (p : PathBuf)          (* open with create, no truncate *)
  | WriteAt (p : PathBuf) (offset : Z) (bytes : list Z)
  | OpenRead (p : PathBuf)
  | ReadAt (p : PathBuf) (offset len : Z).

Record PieceManager := mkPM {
  pm_info : Info;
  pm_save_dir : PathBuf;
  pm_have : list bool;
  pm_pending : gmap nat PendingPiece;
  pm_verified_count : Z;
  pm_verified_bytes : Z;
  pm_availability : list Z
}.

(** [PieceManager::new]. *)
Definition PieceManager_new (info : Info) (save_dir : PathBuf) : PieceManager :=
  let n := length (pieces info) in
  mkPM info save_dir (replicate n false) ∅ 0 0 (replicate n 0).

Definition num_pieces (pm : PieceManager) : nat := length (pieces (pm_info pm)).

(** [PieceManager::validate_path_component]. *)
Definition validate_path_component (c : Component) : result unit :=
  match c with
  | ParentDir => Err (Protocol InvalidTorrent)
  | RootDir | Prefix _ => Err (Protocol InvalidTorrent)
  | _ => Ok tt
  end.

(** [for component in ... { validate_path_component(&component)?; }] *)
Fixpoint validate_components (cs : list Component) : result unit :=
  match cs with
  | [] => Ok tt
  | c :: rest =>
      match validate_path_component c with
      | Err e => Err e
      | Ok _ => validate_components rest
      end
  end.

(** The path-building block shared by [write_piece] and
    [verify_piece_on_disk]. *)
Definition file_path_for (info : Info) (save_dir : PathBuf) (fi : FileInfo)
    : result PathBuf :=
  if is_single_file info then
    match validate_components (components (name info)) with
    | Err e => Err e
    | Ok _ => Ok (join save_dir (components (name info)))
    end
  else
    match validate_components (components (name info)) with
    | Err e => Err e
    | Ok _ =>
        match validate_components (components (fi_path fi)) with
        | Err e => Err e
        | Ok _ => Ok (join (join save_dir (components (name info))) (components (fi_path fi)))
        end
    end.

Definition file_info_at (info : Info) (file_idx : nat) : FileInfo :=
  default (mkFileInfo "" 0) (files info !! file_idx).

(** The loop of [write_piece]. [io_ok p] says whether creating the parent
    directories, opening, seeking and writing [p] succeed. *)
Fixpoint write_loop (info : Info) (save_dir : PathBuf) (io_ok : PathBuf -> bool)
    (slices : list (nat * Z * Z)) (data : list Z) (data_offset : nat)
    : list Effect * result unit :=
  match slices with
  | [] => ([], Ok tt)
  | (file_idx, file_offset, len) :: rest =>
      match file_path_for info save_dir (file_info_at info file_idx) with
      | Err e => ([], Err e)
      | Ok path =>
          let mk := match parent path with Some par => [CreateDirAll par] | None => [] end in
          if negb (io_ok path) then (mk ++ [OpenWrite path], Err (Storage Io))
          else
            let write_end := (data_offset + Z.to_nat len)%nat in
            let chunk := take (Z.to_nat len) (drop data_offset data) in
            let '(eff, r) := write_loop info save_dir io_ok rest data write_end in
            (mk ++ [OpenWrite path; WriteAt path file_offset chunk] ++ eff, r)
      end
  end.

(** [PieceManager::write_piece]. *)
Definition write_piece (pm : PieceManager) (io_ok : PathBuf -> bool)
    (index : nat) (data : list Z) : list Effect * result unit :=
  write_loop (pm_info pm) (pm_save_dir pm) io_ok
    (files_for_piece (pm_info pm) index) data 0.

(** The files [verify_piece_on_disk] reads: [disk_content p] is the
    content of file [p], [None] when it cannot be opened;
    [disk_seek_ok p off] says whether seeking [p] to [off] succeeds. *)
Record Disk := mkDisk {
  disk_content : PathBuf -> option (list Z);
  disk_seek_ok : PathBuf -> Z -> bool
}.

(** The reading loop of [verify_piece_on_disk]. [Ok None] is a file that
    cannot be opened or is too short ([read_exact] fails); a failed seek
    is an I/O error, returned by [?]. *)
Fixpoint read_loop (info : Info) (save_dir : PathBuf) (disk : Disk)
    (slices : list (nat * Z * Z)) (acc : list Z)
    : list Effect * result (option (list Z)) :=
  match slices with
  | [] => ([], Ok (Some acc))
  | (file_idx, file_offset, len) :: rest =>
      match file_path_for info save_dir (file_info_at info file_idx) with
      | Err e => ([], Err e)
      | Ok path =>
          match disk_content disk path with
          | None => ([OpenRead path], Ok None)
          | Some content =>
              if negb (disk_seek_ok disk path file_offset) then
                ([OpenRead path], Err (Storage Io))
              else if Z.of_nat (length content) <? file_offset + len then
                ([OpenRead path; ReadAt path file_offset len], Ok None)
              else
                let buf := take (Z.to_nat len) (drop (Z.to_nat file_offset) content) in
                let '(eff, r) := read_loop info save_dir disk rest (acc ++ buf) in
                (OpenRead path :: ReadAt path file_offset len :: eff, r)
          end
      end
  end.

Definition piece_data_on_disk (pm : PieceManager) (disk : Disk)
    (index : nat) : list Effect * result (option (list Z)) :=
  read_loop (pm_info pm) (pm_save_dir pm) disk (files_for_piece (pm_info pm) index) [].

Section WithSha1.
(** The SHA-1 function. *)
Variable sha1 : list Z -> list Z.

(** [PieceManager::verify_piece_on_disk]. *)
Definition verify_piece_on_disk (pm : PieceManager) (disk : Disk)
    (index : nat) : list Effect * result bool :=
  match piece_hash (pm_info pm) index with
  | None => ([], Ok false)
  | Some expected_hash =>
      match piece_length (pm_info pm) index with
      | None => ([], Ok false)
      | Some _ =>
          let '(eff, r) := piece_data_on_disk pm disk index in
          match r with
          | Err e => (eff, Err e)
          | Ok None => (eff, Ok false)
          | Ok (Some piece_data) =>
              (eff, Ok (bool_decide (sha1 piece_data = expected_hash)))
          end
      end
  end.

Definition set_pending (pm : PieceManager) (pending : gmap nat PendingPiece) : PieceManager :=
  mkPM (pm_info pm) (pm_save_dir pm) (pm_have pm) pending
    (pm_verified_count pm) (pm_verified_bytes pm) (pm_availability pm).

(** [PieceManager::verify_and_save]: effects, result and the new state. *)
Definition verify_and_save (pm : PieceManager) (io_ok : PathBuf -> bool) (index : nat)
    : list Effect * result bool * PieceManager :=
  match pm_pending pm !! index with
  | None => ([], Err (Protocol PeerProtocol), pm)
  | Some piece =>
      match Pending.data piece with
      | None => ([], Err (Protocol PeerProtocol), pm)
      | Some d =>
          match piece_hash (pm_info pm) index with
          | None => ([], Err (Protocol InvalidTorrent), pm)
          | Some expected_hash =>
              if negb (bool_decide (sha1 d = expected_hash)) then
                ([], Ok false, set_pending pm (delete index (pm_pending pm)))
              else
                let '(eff, r) := write_piece pm io_ok index d in
                match r with
                | Err e => (eff, Err e, pm)
                | Ok _ =>
                    (eff, Ok true,
                     mkPM (pm_info pm) (pm_save_dir pm)
                       (<[index := true]> (pm_have pm))
                       (delete index (pm_pending pm))
                       (wrap64 (pm_verified_count pm + 1))
                       (wrap64 (pm_verified_bytes pm + Z.of_nat (length d)))
                       (pm_availability pm))
                end
          end
      end
  end.

(** The loop of [PieceManager::verify_existing]; on an error the bits set
    so far stay set. *)
Fixpoint verify_existing_loop (pm : PieceManager) (disk : Disk)
    (indices : list nat) (valid_count : nat)
    : list Effect * result nat * PieceManager :=
  match indices with
  | [] =>
      ([], Ok valid_count,
       mkPM (pm_info pm) (pm_save_dir pm) (pm_have pm) (pm_pending pm)
         (Z.of_nat valid_count) (pm_verified_bytes pm) (pm_availability pm))
  | index :: rest =>
      let '(eff, r) := verify_piece_on_disk pm disk index in
      match r with
      | Err e => (eff, Err e, pm)
      | Ok false =>
          let '(eff', r', pm') := verify_existing_loop pm disk rest valid_count in
          (eff ++ eff', r', pm')
      | Ok true =>
          let piece_len := default 0 (piece_length (pm_info pm) index) in
          let pm1 := mkPM (pm_info pm) (pm_save_dir pm)
                       (<[index := true]> (pm_have pm)) (pm_pending pm)
                       (pm_verified_count pm)
                       (wrap64 (pm_verified_bytes pm + piece_len))
                       (pm_availability pm) in
          let '(eff', r', pm') := verify_existing_loop pm1 disk rest (S valid_count) in
          (eff ++ eff', r', pm')
      end
  end.

(** [PieceManager::verify_existing]. *)
Definition verify_existing (pm : PieceManager) (disk : Disk)
    : list Effect * result nat * PieceManager :=
  verify_existing_loop pm disk (seq 0 (num_pieces pm)) 0.

End WithSha1.

(** [u32::saturating_add(1)] and [u32::saturating_sub(1)]. *)
Definition u32_saturating_add1 (a : Z) : Z := Z.min (a + 1) (2 ^ 32 - 1).
Definition u32_saturating_sub1 (a : Z) : Z := Z.max (a - 1) 0.

(** [PieceManager::update_availability]; [None] when the source panics
    (an index past the end of [piece_availability]). *)
Fixpoint update_availability_aux (availability : list Z) (peer_pieces : list bool)
    (i : nat) (add : bool) : option (list Z) :=
  match peer_pieces with
  | [] => Some availability
  | has_piece :: rest =>
      if has_piece then
        match availability !! i with
        | None => None
        | Some a =>
            update_availability_aux
              (<[i := if add then u32_saturating_add1 a else u32_saturating_sub1 a]> availability)
              rest (S i) add
        end
      else update_availability_aux availability rest (S i) add
  end.

Definition update_availability (pm : PieceManager) (peer_pieces : list bool) (add : bool)
    : option PieceManager :=
  availability ← update_availability_aux (pm_availability pm) peer_pieces 0 add;
  Some (mkPM (pm_info pm) (pm_save_dir pm) (pm_have pm) (pm_pending pm)
          (pm_verified_count pm) (pm_verified_bytes pm) availability).

(** [slice::sort_by_key], a stable sort, as an insertion sort: an element
    goes before the first element whose key is not smaller. *)
Fixpoint insert_by_key {A} (key : A -> Z) (x : A) (l : list A) : list A :=
  match l with
  | [] => [x]
  | y :: rest => if key x <=? key y then x :: y :: rest else y :: insert_by_key key x rest
  end.

Definition sort_by_key {A} (key : A -> Z) (l : list A) : list A :=
  fold_right (insert_by_key key) [] l.

(** The loop of [select_piece] collecting [(i, availability[i])]. [have]
    and [piece_availability] hold [num_pieces] entries. *)
Definition select_candidates (pm : PieceManager) (peer_has : list bool) : list (nat * Z) :=
  omap (fun i =>
      if default false (pm_have pm !! i) || bool_decide (is_Some (pm_pending pm !! i))
      then None
      else if negb (default false (peer_has !! i)) then None
      else Some (i, default 0 (pm_availability pm !! i)))
    (seq 0 (num_pieces pm)).

(** [PieceManager::select_piece]. *)
Definition select_piece (pm : PieceManager) (peer_has : list bool) : option nat :=
  match sort_by_key snd (select_candidates pm peer_has) with
  | [] => None
  | c :: _ => Some c.1
  end.

(** [PieceManager::start_piece]: the returned copy and the new state. *)
Definition start_piece (pm : PieceManager) (index : nat) : option PendingPiece * PieceManager :=
  match piece_length (pm_info pm) index with
  | None => (None, pm)
  | Some len =>
      let piece := PendingPiece_new (Z.of_nat index) len in
      (Some piece, set_pending pm (<[index := piece]> (pm_pending pm)))
  end.

(** [PieceManager::add_block]. *)
Definition pm_add_block (pm : PieceManager) (index : nat) (offset : Z) (data : list Z)
    : result bool * PieceManager :=
  match pm_pending pm !! index with
  | None => (Err (Protocol PeerProtocol), pm)
  | Some piece =>
      let '(ok, piece') := add_block piece offset data in
      let pm' := set_pending pm (<[index := piece']> (pm_pending pm)) in
      if ok then (Ok (is_complete piece'), pm') else (Err (Protocol PeerProtocol), pm')
  end.

(** [PieceManager::cancel_piece]. *)
Definition cancel_piece (pm : PieceManager) (index : nat) : PieceManager :=
  set_pending pm (delete index (pm_pending pm)).

(** [PieceManager::mark_block_requested]. *)
Definition mark_block_requested (pm : PieceManager) (piece : nat) (block_index : Z) (peer_id : nat)
    : PieceManager :=
  set_pending pm (alter (fun p =>
      mkPendingPiece (pp_index p) (pp_length p) (blocks p) (block_size p)
        (blocks_received p) (<[block_index := peer_id]> (requested_blocks p)))
    piece (pm_pending pm)).

(** The operations of [PieceManager] that change its state, with the
    environment each one observes. *)
Inductive Op :=
  | OpUpdateAvailability (peer_pieces : list bool) (add : bool)
  | OpStartPiece (index : nat)
  | OpAddBlock (index : nat) (offset : Z) (data : list Z)
  | OpVerifyAndSave (index : nat) (io_ok : PathBuf -> bool)
  | OpCancelPiece (index : nat)
  | OpMarkBlockRequested (piece : nat) (block_index : Z) (peer_id : nat)
  | OpVerifyExisting (disk : Disk).

(** The state after one operation; [None] when the source panics. *)
Definition run_op (sha1 : list Z -> list Z) (op : Op) (pm : PieceManager) : option PieceManager :=
  match op with
  | OpUpdateAvailability peer add => update_availability pm peer add
  | OpStartPiece index => Some (start_piece pm index).2
  | OpAddBlock index offset data => Some (pm_add_block pm index offset data).2
  | OpVerifyAndSave index io_ok => Some (verify_and_save sha1 pm io_ok index).2
  | OpCancelPiece index => Some (cancel_piece pm index)
  | OpMarkBlockRequested piece b peer => Some (mark_block_requested pm piece b peer)
  | OpVerifyExisting disk => Some (verify_existing sha1 pm disk).2
  end.

(** A component rejected by [validate_path_component]. *)
Definition bad_component (c : Component) : bool :=
  match c with
  | ParentDir | RootDir | Prefix _ => true
  | CurDir | Normal _ => false
  end.

(** A file slice of a piece whose output path would be built from a
    rejected component: the torrent name, or (multi-file mode) the
    file's relative path. *)
Definition slice_bad (info : Info) (slice : nat * Z * Z) : bool :=
  existsb bad_component (components (name info)) ||
  (negb (is_single_file info) &&
   existsb bad_component (components (fi_path (file_info_at info slice.1.1)))).

(** The file an effect opens, reads or writes. *)
Definition effect_file (e : Effect) : option PathBuf :=
  match e with
  | CreateDirAll _ => None
  | OpenWrite p | WriteAt p _ _ | OpenRead p | ReadAt p _ _ => Some p
  end.

End Manager.


(** ** types.rs (the parts the coordinator and the store read)

    Modelled from the spec: [types.rs] is not among the sources; the
    fields follow the data model of the spec and the uses in [engine.rs]
    and [storage/sqlite.rs]. *)
Module Types.
Import Path.

Inductive DownloadKind := Http | Torrent | Magnet.

Inductive DownloadState :=
  | Queued
  | Connecting
  | Downloading
  | Seeding
  | Paused
  | Completed
  | Error (kind message : string) (retryable : bool).

Definition state_eqb (a b : DownloadState) : bool :=
  match a, b with
  | Queued, Queued | Connecting, Connecting | Downloading, Downloading
  | Seeding, Seeding | Paused, Paused | Completed, Completed => true
  | Error k1 m1 r1, Error k2 m2 r2 =>
      String.eqb k1 k2 && String.eqb m1 m2 && Bool.eqb r1 r2
  | _, _ => false
  end.

Record DownloadProgress := mkProgress {
  total_size : option Z;
  completed_size : Z;
  download_speed : Z;
  upload_speed : Z;
  connections : Z;
  seeders : Z;
  peers : Z;
  eta_seconds : option Z
}.

Record DownloadMetadata := mkMetadata {
  md_name : string;
  md_url : option string;
  md_magnet_uri : option string;
  md_info_hash : option string;
  md_save_dir : PathBuf;
  md_filename : option string;
  md_user_agent : option string;
  md_referer : option string;
  md_headers : list (string * string)
}.

(** [DownloadStatus]; timestamps are kept as their RFC 3339 text and the
    128-bit id as its canonical UUID text. *)
Record DownloadStatus := mkStatus {
  st_id : string;
  st_kind : DownloadKind;
  st_state : DownloadState;
  st_progress : DownloadProgress;
  st_metadata : DownloadMetadata;
  st_created_at : string;
  st_completed_at : option string
}.

End Types.

(** ** engine.rs: [DownloadEngine] *)
Module Engine.
Import Path Types.

Inductive DownloadEvent :=
  | EvStateChanged (id : string) (old_state new_state : DownloadState)
  | EvResumed (id : string)
  | EvFailed (id : string) (error : string) (retryable : bool)
  | EvRemoved (id : string).

(** [ManagedDownload]; [handle] records whether a task handle is stored. *)
Record ManagedDownload := mkManaged { md_status : DownloadStatus; md_handle : bool }.

(** The engine state: the download map, the events sent, and the files
    present on disk. *)
Record EngineState := mkEngine {
  downloads : gmap string ManagedDownload;
  events : list DownloadEvent;
  fs : list PathBuf
}.

Definition set_state (d : ManagedDownload) (st : DownloadState) : ManagedDownload :=
  let s := md_status d in
  mkManaged (mkStatus (st_id s) (st_kind s) st (st_progress s) (st_metadata s)
               (st_created_at s) (st_completed_at s)) (md_handle d).

(** [DownloadEngine::update_state]. *)
Definition update_state (e : EngineState) (id : string) (st : DownloadState)
    : result unit * EngineState :=
  match downloads e !! id with
  | None => (Err NotFound, e)
  | Some d =>
      (Ok tt, mkEngine (<[id := set_state d st]> (downloads e))
                 (events e ++ [EvStateChanged id (st_state (md_status d)) st]) (fs e))
  end.

(** [DownloadEngine::start_download] up to the spawn: the state becomes
    [Connecting] and the task handle is stored. *)
Definition start_download (e : EngineState) (id : string) : result unit * EngineState :=
  match update_state e id Connecting with
  | (Err err, e') => (Err err, e')
  | (Ok _, e') =>
      (Ok tt, mkEngine (alter (fun d => mkManaged (md_status d) true) id (downloads e'))
                (events e') (fs e'))
  end.

(** The error branch of the task spawned by [start_download]: the state
    becomes [Error] and [Failed] is sent; the entry stays in the map. *)
Definition task_failed (e : EngineState) (id : string) (kind msg : string)
    (retryable : bool) : result unit * EngineState :=
  match update_state e id (Error kind msg retryable) with
  | (Err err, e') => (Err err, e')
  | (Ok _, e') => (Ok tt, mkEngine (downloads e') (events e' ++ [EvFailed id msg retryable]) (fs e'))
  end.

(** [DownloadEngine::resume]. *)
Definition resume (e : EngineState) (id : string) : result unit * EngineState :=
  match downloads e !! id with
  | None => (Err NotFound, e)
  | Some d =>
      if negb (state_eqb (st_state (md_status d)) Paused) then
        (Err (InvalidState "resume"), e)
      else
        match md_url (st_metadata (md_status d)) with
        | None => (Err Internal, e)
        | Some _ =>
            match start_download e id with
            | (Err err, e') => (Err err, e')
            | (Ok _, e') => (Ok tt, mkEngine (downloads e') (events e' ++ [EvResumed id]) (fs e'))
            end
        end
  end.

(** [Path::extension] and [Path::with_extension] on a file name, after
    [rsplit_file_at_dot]: a name without a dot, starting with its only
    dot, or equal to [".."] has no extension. *)
Fixpoint last_dot_aux (s : string) (i : nat) (found : option nat) : option nat :=
  match s with
  | EmptyString => found
  | String c rest => last_dot_aux rest (S i) (if Ascii.eqb c "."%char then Some i else found)
  end.

Definition split_file_at_dot (f : string) : option (string * string) :=
  if String.eqb f ".." then None
  else
    match last_dot_aux f 0 None with
    | None => None
    | Some i =>
        let before := String.substring 0 i f in
        let after := String.substring (S i) (String.length f - S i) f in
        if String.eqb before "" then None else Some (before, after)
    end.

Definition file_stem (f : string) : string :=
  match split_file_at_dot f with Some (b, _) => b | None => f end.

Definition path_extension (p : PathBuf) : option string :=
  match last p with
  | Some (Normal f) => snd <$> split_file_at_dot f
  | _ => None
  end.

Definition path_with_extension (p : PathBuf) (ext : string) : PathBuf :=
  match last p with
  | Some (Normal f) =>
      removelast p ++
        [Normal (file_stem f +:+ (if String.eqb ext "" then "" else "." +:+ ext))]
  | _ => p
  end.

(** [SegmentedDownload::part_path]. *)
Definition part_path (save_path : PathBuf) : PathBuf :=
  let ext := match path_extension save_path with
             | Some e => e +:+ ".part"
             | None => "part"
             end in
  path_with_extension save_path ext.

(** Modelled from the spec: the save path the HTTP downloader gives
    [SegmentedDownload] ([HttpDownloader::download_segmented] is not among
    the sources): [<save_dir>/<filename>], whose [.part] file is
    [<save_dir>/<filename>.part]. *)
Definition segmented_save_path (save_dir : PathBuf) (filename : string) : PathBuf :=
  join save_dir (components filename).

Definition remove_file (files : list PathBuf) (p : PathBuf) : list PathBuf :=
  filter (fun q => negb (bool_decide (q = p))) files.

(** [DownloadEngine::cancel]. [remove_ok p] says whether
    [tokio::fs::remove_file] of [p] succeeds; its error is dropped by
    [.ok()], and the file then stays. *)
Definition cancel (remove_ok : PathBuf -> bool) (e : EngineState) (id : string)
    (delete_files : bool) : result unit * EngineState :=
  match downloads e !! id with
  | None => (Err NotFound, e)
  | Some d =>
      let ds := delete id (downloads e) in
      let md := st_metadata (md_status d) in
      let try_remove files p :=
        if bool_decide (p ∈ files) then
          (if remove_ok p then remove_file files p else files)
        else files in
      let files :=
        if delete_files then
          let path := join (md_save_dir md) (components (default "download" (md_filename md))) in
          let files1 := try_remove (fs e) path in
          let partial_path := path_with_extension path "part" in
          try_remove files1 partial_path
        else fs e in
      (Ok tt, mkEngine ds (events e ++ [EvRemoved id]) files)
  end.

(** [DownloadEngine::stopped]: the statuses of the paused, completed and
    failed downloads, in the iteration order of the map. *)
Definition is_stopped (st : DownloadState) : bool :=
  match st with
  | Paused | Completed | Error _ _ _ => true
  | _ => false
  end.

Definition stopped (e : EngineState) : list DownloadStatus :=
  filter (fun s => is_stopped (st_state s) = true)
    (map (fun kv => md_status kv.2) (map_to_list (downloads e))).

End Engine.

(** ** src-rust/src/engine_adapter.rs: [EngineAdapter::resume_all] *)
Module Adapter.
Import Types Engine.

Definition paused_or_failed (st : DownloadState) : bool :=
  match st with
  | Paused | Error _ _ _ => true
  | _ => false
  end.

(** The loop of [resume_all]: [resume] is called for every paused or
    failed download and its result dropped ([let _ = ...]). *)
Fixpoint resume_each (e : EngineState) (ss : list DownloadStatus) : EngineState :=
  match ss with
  | [] => e
  | s :: rest =>
      let e' := if paused_or_failed (st_state s) then (resume e (st_id s)).2 else e in
      resume_each e' rest
  end.

(** [EngineAdapter::resume_all]. *)
Definition resume_all (e : EngineState) : result unit * EngineState :=
  (Ok tt, resume_each e (stopped e)).

End Adapter.

(** ** storage/sqlite.rs: [SqliteStorage::save_download] *)
Module Store.
Import Path Types.

(** A row of the [downloads] table, its 24 columns in schema order. *)
Record Row := mkRow {
  r_id : string;
  r_kind : string;
  r_state : string;
  r_state_error_kind : option string;
  r_state_error_message : option string;
  r_state_error_retryable : option bool;
  r_total_size : option Z;
  r_completed_size : Z;
  r_download_speed : Z;
  r_upload_speed : Z;
  r_connections : Z;
  r_seeders : Z;
  r_peers : Z;
  r_name : string;
  r_url : option string;
  r_magnet_uri : option string;
  r_info_hash : option string;
  r_save_dir : string;
  r_filename : option string;
  r_user_agent : option string;
  r_referer : option string;
  r_headers_json : string;
  r_created_at : string;
  r_completed_at : option string
}.

(** The [downloads] table, keyed by its primary key [id]. *)
Definition Table := gmap string Row.

(** [x as i64] for a [u64] value. *)
Definition i64_of_u64 (x : Z) : Z :=
  let w := x mod 2 ^ 64 in if w <? 2 ^ 63 then w else w - 2 ^ 64.

(** [ToSql for u64]: a value above [i64::MAX] is a conversion failure. *)
Definition u64_to_sql (x : Z) : option Z :=
  if x <=? 2 ^ 63 - 1 then Some x else None.

Definition state_columns (st : DownloadState)
    : string * option string * option string * option bool :=
  match st with
  | Queued => ("queued", None, None, None)
  | Connecting => ("connecting", None, None, None)
  | Downloading => ("downloading", None, None, None)
  | Seeding => ("seeding", None, None, None)
  | Paused => ("paused", None, None, None)
  | Completed => ("completed", None, None, None)
  | Error kind message retryable => ("error", Some kind, Some message, Some retryable)
  end.

Definition kind_str (k : DownloadKind) : string :=
  match k with Http => "http" | Torrent => "torrent" | Magnet => "magnet" end.

Definition quote_char : ascii := Ascii.ascii_of_nat 34.

(** [serde_json] string literal; quotes and backslashes escaped. *)
Fixpoint json_escape (s : string) : string :=
  match s with
  | EmptyString => EmptyString
  | String c rest =>
      if Ascii.eqb c quote_char then String "\"%char (String c (json_escape rest))
      else if Ascii.eqb c "\"%char then String "\"%char (String c (json_escape rest))
      else String c (json_escape rest)
  end.

Definition json_str (s : string) : string :=
  String quote_char (json_escape s +:+ String quote_char EmptyString).

(** [serde_json::to_string] of a [Vec<(String, String)>]. *)
Definition headers_json (hs : list (string * string)) : string :=
  "[" +:+ String.concat "," (map (fun '(k, v) => "[" +:+ json_str k +:+ "," +:+ json_str v +:+ "]") hs) +:+ "]".

(** [Path::to_string_lossy] of a path given by components. *)
Definition component_str (c : Component) : string :=
  match c with
  | Prefix s => s
  | RootDir => ""
  | CurDir => "."
  | ParentDir => ".."
  | Normal s => s
  end.

Definition path_to_string (p : PathBuf) : string :=
  match p with
  | [RootDir] => "/"
  | _ => String.concat "/" (map component_str p)
  end.

(** The parameters [?1] .. [?24] bound by [save_download]; [None] when a
    parameter fails to convert. *)
Definition row_of_status (s : DownloadStatus) : option Row :=
  let '(state_str, error_kind, error_msg, error_retryable) := state_columns (st_state s) in
  let p := st_progress s in
  let md := st_metadata s in
  let total :=
    match total_size p with
    | None => Some None
    | Some t => Some <$> u64_to_sql t
    end in
  match total with
  | None => None
  | Some total =>
      Some (mkRow (st_id s) (kind_str (st_kind s)) state_str error_kind error_msg error_retryable
              total (i64_of_u64 (completed_size p)) (i64_of_u64 (download_speed p))
              (i64_of_u64 (upload_speed p)) (i64_of_u64 (connections p))
              (i64_of_u64 (seeders p)) (i64_of_u64 (peers p))
              (md_name md) (md_url md) (md_magnet_uri md) (md_info_hash md)
              (path_to_string (md_save_dir md)) (md_filename md) (md_user_agent md)
              (md_referer md) (headers_json (md_headers md))
              (st_created_at s) (st_completed_at s))
  end.

(** [ON CONFLICT(id) DO UPDATE SET ...]: the listed columns take the
    [excluded] values, the others keep the stored ones. *)
Definition upsert_update (old excluded : Row) : Row :=
  mkRow (r_id old) (r_kind old)
    (r_state excluded) (r_state_error_kind excluded) (r_state_error_message excluded)
    (r_state_error_retryable excluded)
    (r_total_size excluded) (r_completed_size excluded) (r_download_speed excluded)
    (r_upload_speed excluded) (r_connections excluded) (r_seeders excluded) (r_peers excluded)
    (r_name old) (r_url old) (r_magnet_uri old) (r_info_hash old) (r_save_dir old)
    (r_filename excluded) (r_user_agent old) (r_referer old) (r_headers_json old)
    (r_created_at old) (r_completed_at excluded).

(** The [INSERT ... ON CONFLICT(id) DO UPDATE] statement. *)
Definition insert_or_update (t : Table) (r : Row) : Table :=
  match t !! r_id r with
  | None => <[r_id r := r]> t
  | Some old => <[r_id r := upsert_update old r]> t
  end.

(** [SqliteStorage::save_download]. *)
Definition save_download (t : Table) (s : DownloadStatus) : result unit * Table :=
  match row_of_status s with
  | None => (Err Database, t)
  | Some r => (Ok tt, insert_or_update t r)
  end.

End Store.

(** ** storage/sqlite.rs: the [segments] table, deletes and loads *)
Module StoreLoad.
Import Path Types Manager Store.

(** [SegmentState] and [Segment] of the storage module, modelled from
    their uses in sqlite.rs (storage/mod.rs is not among the sources). *)
Inductive SegmentState :=
  | SegPending
  | SegDownloading
  | SegCompleted
  | SegFailed (error : string) (retries : Z).   (* u32 *)

Record StoredSegment := mkStoredSegment {
  seg_index : Z;                         (* usize *)
  seg_start : Z;                         (* u64 *)
  seg_end : Z;                           (* u64 *)
  seg_downloaded : Z;                    (* u64 *)
  seg_state : SegmentState
}.

(** A row of the [segments] table; the [AUTOINCREMENT] key is never read
    and is left out. *)
Record SegmentRow := mkSegmentRow {
  sr_download_id : string;
  sr_index : Z;
  sr_start : Z;
  sr_end : Z;
  sr_downloaded : Z;
  sr_state : string;
  sr_error_message : option string;
  sr_error_retries : Z
}.

(** The database: both tables; [segments] in insertion order. *)
Record Db := mkDb { db_downloads : Table; db_segments : list SegmentRow }.

(** The parameters bound by one [INSERT INTO segments] of [save_segments]. *)
Definition segment_row (id : string) (s : StoredSegment) : SegmentRow :=
  let '(state_str, error_msg, retries) :=
    match seg_state s with
    | SegPending => ("pending", None, 0)
    | SegDownloading => ("downloading", None, 0)
    | SegCompleted => ("completed", None, 0)
    | SegFailed error retries => ("failed", Some error, retries)
    end in
  mkSegmentRow id (i64_of_u64 (seg_index s)) (i64_of_u64 (seg_start s))
    (i64_of_u64 (seg_end s)) (i64_of_u64 (seg_downloaded s)) state_str error_msg retries.

(** One [INSERT]: the foreign key needs the download's row, and
    [UNIQUE (download_id, segment_index)] refuses a second row with the
    same index; [None] is the constraint error. *)
Definition insert_segment_row (db : Db) (r : SegmentRow) : option Db :=
  if bool_decide (is_Some (db_downloads db !! sr_download_id r)) then
    if existsb (fun q => String.eqb (sr_download_id q) (sr_download_id r) &&
                         (sr_index q =? sr_index r)) (db_segments db)
    then None
    else Some (mkDb (db_downloads db) (db_segments db ++ [r]))
  else None.

(** [DELETE FROM segments WHERE download_id = ?1]. *)
Definition delete_segment_rows (db : Db) (id : string) : Db :=
  mkDb (db_downloads db) (filter (fun q => String.eqb (sr_download_id q) id = false) (db_segments db)).

(** The insert loop of [save_segments]; there is no transaction, so the
    rows inserted before a failing one stay. *)
Fixpoint insert_segments (db : Db) (id : string) (segs : list StoredSegment) : result unit * Db :=
  match segs with
  | [] => (Ok tt, db)
  | s :: rest =>
      match insert_segment_row db (segment_row id s) with
      | None => (Err Database, db)
      | Some db' => insert_segments db' id rest
      end
  end.

(** [SqliteStorage::save_segments]. *)
Definition save_segments (db : Db) (id : string) (segs : list StoredSegment) : result unit * Db :=
  insert_segments (delete_segment_rows db id) id segs.

(** The row closure of [load_segments]. *)
Definition segment_of_row (r : SegmentRow) : StoredSegment :=
  let state :=
    if String.eqb (sr_state r) "pending" then SegPending
    else if String.eqb (sr_state r) "downloading" then SegPending
    else if String.eqb (sr_state r) "completed" then SegCompleted
    else if String.eqb (sr_state r) "failed" then
      SegFailed (default "" (sr_error_message r)) (sr_error_retries r mod 2 ^ 32)
    else SegPending in
  mkStoredSegment (wrap64 (sr_index r)) (wrap64 (sr_start r)) (wrap64 (sr_end r))
    (wrap64 (sr_downloaded r)) state.

(** [SqliteStorage::load_segments]: the rows of the download [ORDER BY
    segment_index]. *)
Definition load_segments (db : Db) (id : string) : list StoredSegment :=
  map segment_of_row
    (sort_by_key sr_index (filter (fun q => String.eqb (sr_download_id q) id = true) (db_segments db))).

(** [SqliteStorage::delete_download]; [ON DELETE CASCADE] removes the
    download's segments. *)
Definition delete_download (db : Db) (id : string) : Db :=
  mkDb (delete id (db_downloads db))
    (filter (fun q => String.eqb (sr_download_id q) id = false) (db_segments db)).

(** [SqliteStorage::save_download] on the whole database. *)
Definition save_download_db (db : Db) (s : DownloadStatus) : result unit * Db :=
  let '(res, t) := save_download (db_downloads db) s in (res, mkDb t (db_segments db)).

Section RowToStatus.
(** The library parsers [row_to_status] calls: [Uuid::parse_str] (giving
    the canonical text back), [serde_json::from_str] for the headers,
    [DateTime::parse_from_rfc3339] (giving the RFC 3339 text of the UTC
    time), and the value of [Utc::now()]. *)
Variable uuid_parse : string -> option string.
Variable headers_parse : string -> option (list (string * string)).
Variable rfc3339_parse : string -> option string.
Variable now : string.

Definition kind_of_str (k : string) : DownloadKind :=
  if String.eqb k "http" then Http
  else if String.eqb k "torrent" then Torrent
  else if String.eqb k "magnet" then Magnet
  else Http.

Definition state_of_columns (st : string) (error_kind error_msg : option string)
    (error_retryable : option bool) : DownloadState :=
  if String.eqb st "queued" then Queued
  else if String.eqb st "connecting" then Connecting
  else if String.eqb st "downloading" then Downloading
  else if String.eqb st "seeding" then Seeding
  else if String.eqb st "paused" then Paused
  else if String.eqb st "completed" then Completed
  else if String.eqb st "error" then
    Error (default "" error_kind) (default "" error_msg) (default false error_retryable)
  else Queued.

(** [row_to_status]; [None] when the id does not parse. *)
Definition row_to_status (r : Row) : option DownloadStatus :=
  id ← uuid_parse (r_id r);
  let headers := default [] (headers_parse (r_headers_json r)) in
  let created_at := default now (rfc3339_parse (r_created_at r)) in
  let completed_at := r_completed_at r ≫= rfc3339_parse in
  Some (mkStatus id (kind_of_str (r_kind r))
          (state_of_columns (r_state r) (r_state_error_kind r) (r_state_error_message r)
             (r_state_error_retryable r))
          (mkProgress (wrap64 <$> r_total_size r) (wrap64 (r_completed_size r))
             (wrap64 (r_download_speed r)) (wrap64 (r_upload_speed r))
             (r_connections r mod 2 ^ 32) (r_seeders r mod 2 ^ 32) (r_peers r mod 2 ^ 32) None)
          (mkMetadata (r_name r) (r_url r) (r_magnet_uri r) (r_info_hash r)
             (components (r_save_dir r)) (r_filename r) (r_user_agent r) (r_referer r) headers)
          created_at completed_at).

(** [SqliteStorage::load_download]: [Ok None] when no row has the id, a
    [Database] error when the row does not convert. *)
Definition load_download (db : Db) (id : string) : result (option DownloadStatus) :=
  match db_downloads db !! id with
  | None => Ok None
  | Some r =>
      match row_to_status r with
      | None => Err Database
      | Some s => Ok (Some s)
      end
  end.

End RowToStatus.

End StoreLoad.

(** ** torrent/piece.rs: block requests, endgame and progress queries *)
Module PieceQueries.
Import Meta Pending Manager.

(** [u32] wrap-around ([as u32] casts and release-mode [u32] products). *)
Definition wrap32 (x : Z) : Z := x mod 2 ^ 32.

(** The [(offset, length)] of block [i] as [unrequested_blocks] and
    [endgame_requests] compute it. *)
Definition block_span (p : PendingPiece) (i : nat) : Z * Z :=
  let offset := wrap32 (Z.of_nat i * block_size p) in
  let length :=
    if (i =? length (blocks p) - 1)%nat then
      wrap32 (Z.min (wrap64 (pp_length p - offset)) (block_size p))
    else block_size p in
  (offset, length).

(** [PendingPiece::unrequested_blocks]. *)
Definition unrequested_blocks (p : PendingPiece) : list (Z * Z) :=
  omap (fun i =>
      match blocks p !! i with
      | Some None =>
          if bool_decide (is_Some (requested_blocks p !! wrap32 (Z.of_nat i))) then None
          else Some (block_span p i)
      | _ => None
      end)
    (seq 0 (length (blocks p))).

(** [PendingPiece::mark_requested]. *)
Definition mark_requested (p : PendingPiece) (block_index : Z) (peer_id : nat) : PendingPiece :=
  mkPendingPiece (pp_index p) (pp_length p) (blocks p) (block_size p)
    (blocks_received p) (<[block_index := peer_id]> (requested_blocks p)).

(** [BlockRequest]. *)
Record BlockRequest := mkBlockRequest { br_piece : Z; br_offset : Z; br_length : Z }.

(** [PieceManager::get_block_requests]. *)
Definition get_block_requests (pm : PieceManager) (index : nat) : list BlockRequest :=
  match pm_pending pm !! index with
  | None => []
  | Some piece =>
      map (fun '(offset, length) => mkBlockRequest (Z.of_nat index) offset length)
        (unrequested_blocks piece)
  end.

(** [PieceManager::have_piece]. *)
Definition have_piece (pm : PieceManager) (index : nat) : bool :=
  default false (pm_have pm !! index).

(** [PieceManager::need_piece]; [None] when indexing [have] panics. *)
Definition need_piece (pm : PieceManager) (index : nat) : option bool :=
  if (num_pieces pm <=? index)%nat then Some false
  else
    match pm_have pm !! index with
    | None => None
    | Some h => Some (negb h && negb (bool_decide (is_Some (pm_pending pm !! index))))
    end.

(** [BitVec::count_ones]. *)
Definition count_ones (bits : list bool) : nat := length (filter (fun b => b = true) bits).

(** [PieceManager::is_complete]. *)
Definition pm_is_complete (pm : PieceManager) : bool :=
  (count_ones (pm_have pm) =? num_pieces pm)%nat.

(** [PieceProgress] and [PieceManager::progress]. *)
Record PieceProgress := mkPieceProgress {
  total_pieces : nat;
  have_pieces : nat;
  pending_pieces : nat;
  verified_bytes : Z;
  pp_total_size : Z
}.

Definition progress (pm : PieceManager) : PieceProgress :=
  mkPieceProgress (num_pieces pm) (count_ones (pm_have pm)) (size (pm_pending pm))
    (pm_verified_bytes pm) (total_size (pm_info pm)).

(** [PieceProgress::bytes_remaining]: [u64::saturating_sub]. *)
Definition bytes_remaining (pr : PieceProgress) : Z :=
  Z.max (pp_total_size pr - verified_bytes pr) 0.

(** The filter of [endgame_pieces] over [0..num_pieces as u32]; [None]
    when indexing [bits] panics. *)
Fixpoint endgame_remaining (bits : list bool) (idx : list nat) : option (list nat) :=
  match idx with
  | [] => Some []
  | i :: rest =>
      match (bits !! i : option bool) with
      | None => None
      | Some h =>
          match endgame_remaining bits rest with
          | None => None
          | Some r => Some (if h then r else i :: r)
          end
      end
  end.

(** [PieceManager::endgame_pieces]. *)
Definition endgame_pieces (pm : PieceManager) : option (list nat) :=
  remaining ← endgame_remaining (pm_have pm)
                (seq 0 (Z.to_nat (wrap32 (Z.of_nat (num_pieces pm)))));
  Some (if (length remaining <=? 10)%nat then remaining else []).

(** The requests [endgame_requests] emits for one pending piece. *)
Definition piece_endgame_requests (p : PendingPiece) : list BlockRequest :=
  omap (fun i =>
      match blocks p !! i with
      | Some None => let '(offset, length) := block_span p i in
                     Some (mkBlockRequest (pp_index p) offset length)
      | _ => None
      end)
    (seq 0 (length (blocks p))).

(** [PieceManager::endgame_requests]; the pieces are visited in the
    iteration order of the pending map. *)
Definition endgame_requests (pm : PieceManager) : list BlockRequest :=
  concat (map (fun kp => piece_endgame_requests kp.2) (map_to_list (pm_pending pm))).

End PieceQueries.

(** ** Properties the statements below are phrased with *)
Module Props.
Import Path Meta Pending Manager.

(** The shape [PendingPiece::new] gives a piece, kept by [add_block]. *)
Definition pending_wf (p : PendingPiece) : Prop :=
  block_size p = BLOCK_SIZE /\
  Z.of_nat (length (blocks p)) = div_ceil (pp_length p) BLOCK_SIZE /\
  0 <= pp_length p < u64_modulus.

(** The first element of least availability, ties broken by index. *)
Definition first_min (l : list (nat * Z)) (c : nat * Z) : Prop :=
  c ∈ l /\ forall d, d ∈ l -> c.2 < d.2 \/ (c.2 = d.2 /\ (c.1 <= d.1)%nat).

(** A piece [select_piece] may return: in range, not had, not pending,
    and advertised by the peer. *)
Definition select_candidate (pm : PieceManager) (peer_has : list bool) (j : nat) : Prop :=
  (j < num_pieces pm)%nat /\ pm_have pm !! j = Some false /\
  pm_pending pm !! j = None /\ peer_has !! j = Some true.

(** [p] lies under [save_dir] and has no rejected component below it. *)
Definition under (save_dir p : PathBuf) : Prop :=
  exists cs, p = save_dir ++ cs /\ Forall (fun c => bad_component c = false) cs.

(** Every file an effect trace touches lies under [save_dir]. *)
Definition effects_under (save_dir : PathBuf) (eff : list Effect) : Prop :=
  forall e p, e ∈ eff -> effect_file e = Some p -> under save_dir p.

(** A two-file torrent whose second file is [../../etc/passwd]. *)
Definition traversal_info : Info :=
  mkInfo "t" false [mkFileInfo "a.txt" 10; mkFileInfo "../../etc/passwd" 10] 10 [[1]; [2]].

End Props.

(** ** Sample downloads *)
Module Samples.
Import Path Types Engine Store.

Definition dl_dir : PathBuf := [RootDir; Normal "dl"].

Definition progress0 : DownloadProgress := mkProgress (Some 100) 40 0 0 0 0 0 None.

Definition metadata_of (name : string) : DownloadMetadata :=
  mkMetadata name (Some "http://example.com/archive.zip") None None dl_dir
    (Some "archive.zip") None None [("Accept", "*/*")].

Definition status_of (name : string) (st : DownloadState) : DownloadStatus :=
  mkStatus "id1" Http st progress0 (metadata_of name) "2024-01-01T00:00:00+00:00" None.

(** An engine holding one HTTP download of [archive.zip] in state [st],
    with the given files on disk. *)
Definition engine_with (st : DownloadState) (files : list PathBuf) : EngineState :=
  mkEngine {[ "id1" := mkManaged (status_of "archive.zip" st) true ]} [] files.

(** A one-file torrent with two pieces of 40000 and 5 bytes. *)
Definition two_piece_info : Meta.Info :=
  Meta.mkInfo "m" true [Meta.mkFileInfo "m.bin" 40005] 40000 [[1]; [2]].

(** A one-file torrent [h.bin] with one piece of 3 bytes whose hash is
    [[6]], and a stand-in for SHA-1 (the sum of the bytes) under which
    [[1; 2; 3]] matches and [[1; 2; 4]] does not. *)
Definition hash_info : Meta.Info :=
  Meta.mkInfo "h.bin" true [Meta.mkFileInfo "h.bin" 3] 3 [[6]].

Definition sum_hash (d : list Z) : list Z := [fold_right Z.add 0 d].

(** The manager of [hash_info] after piece 0 was started and its one
    block [d] received. *)
Definition pm_with_piece (d : list Z) : Manager.PieceManager :=
  (Manager.pm_add_block
     (Manager.start_piece (Manager.PieceManager_new hash_info [Normal "dl"]) 0).2 0 0 d).2.

(** A disk holding [d] in [dl/h.bin], on which every seek succeeds. *)
Definition disk_with (d : list Z) : Manager.Disk :=
  Manager.mkDisk
    (fun p => if bool_decide (p = [Normal "dl"; Normal "h.bin"]) then Some d else None)
    (fun _ _ => true).

(** The [.part] file of the segmented download of [archive.zip]. *)
Definition archive_part : PathBuf := part_path (segmented_save_path dl_dir "archive.zip").

End Samples.

(** ** Properties of the further code *)
Module MoreProps.
Import Pending Manager PieceQueries Props.

(** The size a block [k] of a piece of [len] bytes has:
    [min(BLOCK_SIZE, len - k * BLOCK_SIZE)]. *)
Definition block_len (len : Z) (k : nat) : Z := Z.min BLOCK_SIZE (len - Z.of_nat k * BLOCK_SIZE).

(** The shape [add_block] keeps: the shape of [PendingPiece::new],
    [blocks_received] counting the filled slots, and every filled slot
    holding a block of its size. *)
Definition pending_inv (p : PendingPiece) : Prop :=
  pending_wf p /\
  blocks_received p = length (filter is_Some (blocks p)) /\
  forall i b, blocks p !! i = Some (Some b) -> Z.of_nat (length b) = block_len (pp_length p) i.

Definition sum_lengths (rs : list BlockRequest) : Z :=
  fold_right (fun r acc => br_length r + acc) 0 rs.

(** Calls made on one pending piece. *)
Inductive PieceOp :=
  | PAddBlock (offset : Z) (data : list Z)
  | PMarkRequested (block_index : Z) (peer_id : nat).

Definition run_piece_op (p : PendingPiece) (op : PieceOp) : PendingPiece :=
  match op with
  | PAddBlock offset data => (add_block p offset data).2
  | PMarkRequested b peer => mark_requested p b peer
  end.

Definition run_piece_ops (p : PendingPiece) (ops : list PieceOp) : PendingPiece :=
  foldl run_piece_op p ops.

(** Offsets are [u32] values. *)
Definition op_in_range (op : PieceOp) : Prop :=
  match op with
  | PAddBlock offset _ => 0 <= offset < 2 ^ 32
  | PMarkRequested _ _ => True
  end.

(** A stored segment whose values fit the columns: the index below
    [i64::MAX], the byte counts [u64] values and the retries a [u32]. *)
Definition seg_in_range (s : StoreLoad.StoredSegment) : Prop :=
  0 <= StoreLoad.seg_index s < 2 ^ 63 /\ 0 <= StoreLoad.seg_start s < 2 ^ 64 /\
  0 <= StoreLoad.seg_end s < 2 ^ 64 /\ 0 <= StoreLoad.seg_downloaded s < 2 ^ 64 /\
  match StoreLoad.seg_state s with
  | StoreLoad.SegFailed _ r => 0 <= r < 2 ^ 32
  | _ => True
  end.

(** A segment as [load_segments] gives it back: [Downloading] reads as
    [Pending]. *)
Definition segment_reloaded (s : StoreLoad.StoredSegment) : StoreLoad.StoredSegment :=
  StoreLoad.mkStoredSegment (StoreLoad.seg_index s) (StoreLoad.seg_start s)
    (StoreLoad.seg_end s) (StoreLoad.seg_downloaded s)
    (match StoreLoad.seg_state s with
     | StoreLoad.SegDownloading => StoreLoad.SegPending
     | st => st
     end).

(** The [segment_index] column value of a segment. *)
Definition idx64 (s : StoreLoad.StoredSegment) : Z := Store.i64_of_u64 (StoreLoad.seg_index s).

(** Progress values that fit the columns: the total at most [i64::MAX]
    (so [ToSql for u64] accepts it), the byte counts and speeds [u64]
    values and the counts [u32] values. *)
Definition progress_storable (p : Types.DownloadProgress) : Prop :=
  match Types.total_size p with None => True | Some t => 0 <= t <= 2 ^ 63 - 1 end /\
  0 <= Types.completed_size p < 2 ^ 64 /\ 0 <= Types.download_speed p < 2 ^ 64 /\
  0 <= Types.upload_speed p < 2 ^ 64 /\ 0 <= Types.connections p < 2 ^ 32 /\
  0 <= Types.seeders p < 2 ^ 32 /\ 0 <= Types.peers p < 2 ^ 32.

(** A status as [load_download] gives it back: no ETA, and the save
    directory re-parsed from its text. *)
Definition status_reloaded (s : Types.DownloadStatus) : Types.DownloadStatus :=
  let p := Types.st_progress s in
  let md := Types.st_metadata s in
  Types.mkStatus (Types.st_id s) (Types.st_kind s) (Types.st_state s)
    (Types.mkProgress (Types.total_size p) (Types.completed_size p) (Types.download_speed p)
       (Types.upload_speed p) (Types.connections p) (Types.seeders p) (Types.peers p) None)
    (Types.mkMetadata (Types.md_name md) (Types.md_url md) (Types.md_magnet_uri md)
       (Types.md_info_hash md) (Path.components (Store.path_to_string (Types.md_save_dir md)))
       (Types.md_filename md) (Types.md_user_agent md) (Types.md_referer md)
       (Types.md_headers md))
    (Types.st_created_at s) (Types.st_completed_at s).

(** The pieces whose have-bit is clear, in increasing order. *)
Definition missing_pieces (pm : PieceManager) : list nat :=
  filter (fun i => pm_have pm !! i = Some false) (seq 0 (num_pieces pm)).

End MoreProps.

(** * Proofs *)
Import Props MoreProps.

(** ** Lemmas about the segment partition *)
Module SegmentedFacts.
Import Segmented.

Lemma segment_count_bounds (N c m : Z) :
  1 <= N -> 1 <= c -> 1 <= m ->
  1 <= calculate_segment_count N c m <= N.
Proof.
  intros HN Hc Hm. unfold calculate_segment_count.
  destruct (Z.eqb_spec N 0); [lia|]. cbn zeta.
  assert (N / m <= N) by (apply Z.div_le_upper_bound; nia).
  lia.
Qed.

Lemma lookup_init_segments (N c m : Z) (i : nat) (s : Segment) :
  init_segments N c m !! i = Some s <->
  (i < Z.to_nat (calculate_segment_count N c m))%nat /\
  s = init_segment N (calculate_segment_count N c m)
        (N / calculate_segment_count N c m) (Z.of_nat i).
Proof.
  unfold init_segments. rewrite list_lookup_fmap.
  destruct (seq 0 _ !! i) eqn:E; simpl.
  - apply lookup_seq in E as [-> Hi]. simpl. split.
    + intros [= <-]. auto.
    + intros [_ ->]. reflexivity.
  - apply lookup_ge_None in E. rewrite length_seq in E.
    split; [discriminate|]. lia.
Qed.

End SegmentedFacts.

Import Segmented.

(** Claim C3. For total_size N >= 1, max_connections c >= 1 and
    min_segment_size m >= 1 (all below 2^64): the segment count is
    max(1, min(c, max(1, N / m))); [init_segments] yields that many
    segments; segment 0 starts at 0; every segment i starts at
    i * (N / num), ends at or after its start, and, except the last, spans
    N / num bytes and is followed by a segment starting one past its end;
    the last segment ends at N - 1. For N = 100 MiB, c = 16, m = 1 MiB the
    segments are [0..6553599], ..., [98304000..104857599]. *)
Theorem init_segments_partition (N c m : Z) :
  1 <= N < u64_modulus -> 1 <= c < u64_modulus -> 1 <= m < u64_modulus ->
  let num := calculate_segment_count N c m in
  let segs := init_segments N c m in
  num = Z.max 1 (Z.min c (Z.max 1 (N / m))) /\
  Z.of_nat (length segs) = num /\
  (forall s, segs !! 0%nat = Some s -> start s = 0) /\
  (forall (i : nat) s, segs !! i = Some s ->
     start s = Z.of_nat i * (N / num) /\ start s <= seg_end s) /\
  (forall (i : nat) s s', segs !! i = Some s -> segs !! S i = Some s' ->
     start s' = seg_end s + 1 /\ seg_end s - start s + 1 = N / num) /\
  (forall s, last segs = Some s -> seg_end s = N - 1) /\
  map (fun s => (start s, seg_end s)) (init_segments 104857600 16 1048576) =
    [(0, 6553599); (6553600, 13107199); (13107200, 19660799);
     (19660800, 26214399); (26214400, 32767999); (32768000, 39321599);
     (39321600, 45875199); (45875200, 52428799); (52428800, 58982399);
     (58982400, 65535999); (65536000, 72089599); (72089600, 78643199);
     (78643200, 85196799); (85196800, 91750399); (91750400, 98303999);
     (98304000, 104857599)].
Proof.
  intros HN Hc Hm num segs. unfold u64_modulus in *.
  pose proof (SegmentedFacts.segment_count_bounds N c m ltac:(lia) ltac:(lia) ltac:(lia)) as Hb.
  fold num in Hb.
  set (sz := N / num).
  assert (Hsz : num * sz <= N) by (apply Z.mul_div_le; lia).
  assert (Hsz1 : 1 <= sz) by (apply Z.div_le_lower_bound; lia).
  assert (Hrem : N < num * sz + num).
  { pose proof (Z.div_mod N num ltac:(lia)). pose proof (Z.mod_pos_bound N num ltac:(lia)).
    unfold sz. lia. }
  assert (Hseg : forall (i : nat) s, segs !! i = Some s ->
            (i < Z.to_nat num)%nat /\ s = init_segment N num sz (Z.of_nat i))
    by (intros i s Hs; apply SegmentedFacts.lookup_init_segments in Hs; exact Hs).
  assert (Hlen : Z.of_nat (length segs) = num).
  { unfold segs, init_segments. rewrite length_map, length_seq. fold num. lia. }
  assert (Hfield : forall (i : nat), (i < Z.to_nat num)%nat ->
            start (init_segment N num sz (Z.of_nat i)) = Z.of_nat i * sz /\
            seg_end (init_segment N num sz (Z.of_nat i)) =
              (if Z.of_nat i =? num - 1 then N - 1 else (Z.of_nat i + 1) * sz - 1)).
  { intros i Hi. unfold init_segment, wrap64, u64_modulus; simpl.
    assert (Z.of_nat i * sz <= (num - 1) * sz) by (apply Z.mul_le_mono_nonneg_r; lia).
    split; [apply Z.mod_small; lia|].
    destruct (Z.eqb_spec (Z.of_nat i) (num - 1)); apply Z.mod_small; nia. }
  split; [|split; [exact Hlen|split; [|split; [|split; [|split]]]]].
  - unfold num, calculate_segment_count.
    destruct (Z.eqb_spec N 0); [lia|]. cbn zeta. lia.
  - intros s Hs. apply Hseg in Hs as [Hi ->]. apply (Hfield 0%nat Hi).
  - intros i s Hs. apply Hseg in Hs as [Hi ->].
    destruct (Hfield i Hi) as [-> ->]. split; [reflexivity|].
    destruct (Z.eqb_spec (Z.of_nat i) (num - 1)).
    + assert (Z.of_nat i * sz <= (num - 1) * sz) by (apply Z.mul_le_mono_nonneg_r; lia). lia.
    + nia.
  - intros i s s' Hs Hs'. apply Hseg in Hs as [Hi ->]. apply Hseg in Hs' as [Hi' ->].
    destruct (Hfield i Hi) as [-> ->]. destruct (Hfield (S i) Hi') as [-> _].
    destruct (Z.eqb_spec (Z.of_nat i) (num - 1)); [lia|]. split; lia.
  - intros s Hs. rewrite last_lookup in Hs.
    apply Hseg in Hs as [Hi ->]. destruct (Hfield _ Hi) as [_ ->].
    assert (Hl : Z.of_nat (pred (length segs)) = num - 1) by lia.
    rewrite Hl, Z.eqb_refl. reflexivity.
  - reflexivity.
Qed.

Import SegmentTask.

(** Claim C4 (code_bug). A segment task whose effective start offset is
    1048576 accepts a [200 OK] response and writes its body at offset
    1048576 instead of failing; a [204] response is accepted too: the
    status check lets every 2xx status through. *)
Theorem segment_task_accepts_any_2xx :
  segment_task 1048576 2097151 0 false false (Resp 200 [ChunkOk [7; 8; 9]])
    = (Ok tt, [(1048576, [7; 8; 9])]) /\
  segment_task 4096 8191 1024 false false (Resp 200 [ChunkOk [1]])
    = (Ok tt, [(5120, [1])]) /\
  segment_task 0 99 0 false false (Resp 204 []) = (Ok tt, []) /\
  segment_task 0 99 0 false false (Resp 416 [ChunkOk [1]])
    = (Err (Network (HttpStatus 416)), []).
Proof. repeat split; reflexivity. Qed.

(** Claim C5 (code_bug). Whatever the segment tasks do, [start] returns
    [Ok(())] once the file is prepared, flushed and (if complete)
    renamed: the tasks' errors are dropped, and each pending segment gets
    at most one request (no retry). For a single segment [0..99] answered
    with status 500 the task fails with [HttpStatus 500], one request is
    sent, and [start] still returns [Ok(())]. *)
Theorem start_drops_segment_errors :
  (forall sd env,
     (start_download sd true true true env).1.1 = Ok tt /\
     Forall (fun n => (n <= 1)%nat) (start_download sd true true true env).2) /\
  start_download (mkSD 100 [Segment_new 0 0 99] 0) true true true
    (fun _ => mkTaskEnv false false (Resp 500 []))
    = (Ok tt, [Err (Network (HttpStatus 500))], [1%nat]).
Proof.
  split; [|reflexivity].
  intros sd env. unfold start_download. simpl. split.
  - destruct (_ <=? _); reflexivity.
  - destruct (_ <=? _); simpl; apply Forall_forall;
      intros n Hn; apply list_elem_of_fmap in Hn as [s [-> _]];
      repeat destruct (_ || _); lia.
Qed.

Import Path Meta Pending Manager.


Lemma PendingPiece_new_wf (index len : Z) :
  0 <= len < u64_modulus -> pending_wf (PendingPiece_new index len).
Proof.
  intros H. unfold pending_wf, PendingPiece_new, div_ceil, BLOCK_SIZE; simpl.
  rewrite length_replicate. split; [reflexivity|split; [|lia]].
  rewrite Z2Nat.id; [reflexivity|]. apply Z.div_pos; lia.
Qed.

(** The size [add_block] expects for an aligned in-range slot is
    [min(block_size, length - offset)]. *)
Lemma add_block_expected_size (p : PendingPiece) (offset : Z) :
  pending_wf p -> 0 <= offset -> offset mod BLOCK_SIZE = 0 ->
  (Z.to_nat (offset / BLOCK_SIZE) < length (blocks p))%nat ->
  (if (Z.to_nat (offset / BLOCK_SIZE) =? length (blocks p) - 1)%nat then
     Z.min (wrap64 (pp_length p - offset)) BLOCK_SIZE
   else BLOCK_SIZE) = Z.min BLOCK_SIZE (pp_length p - offset).
Proof.
  unfold pending_wf, div_ceil, BLOCK_SIZE, wrap64, u64_modulus.
  intros (_ & Hlen & HL) Hoff Hmod Hbi.
  set (n := length (blocks p)) in *. set (L := pp_length p) in *.
  pose proof (Z.div_mod offset 16384 ltac:(lia)) as Hdm. rewrite Hmod in Hdm.
  set (q := offset / 16384) in *.
  assert (0 <= q) by (apply Z.div_pos; lia).
  assert (Hn : Z.of_nat n * 16384 <= L + 16384 - 1).
  { rewrite Hlen. rewrite Z.mul_comm. apply Z.mul_div_le. lia. }
  assert (Hq : q < Z.of_nat n) by lia.
  destruct (Nat.eqb_spec (Z.to_nat q) (n - 1)) as [E|E].
  - assert (q = Z.of_nat n - 1) by lia.
    rewrite Z.mod_small by nia. lia.
  - assert (q + 1 <= Z.of_nat n - 1) by lia. nia.
Qed.

(** Claim C6, as stated: a duplicate is rejected with its slot unchanged.
    Refuted: after block 0 of a one-byte piece is received, receiving it
    again returns [true] and replaces the stored block. *)
Lemma add_block_duplicate_accepted :
  let p1 := (add_block (PendingPiece_new 0 1) 0 [5]).2 in
  (add_block p1 0 [6]).1 = true /\
  blocks (add_block p1 0 [6]).2 <> blocks p1 /\
  blocks_received (add_block p1 0 [6]).2 = blocks_received p1.
Proof. simpl. split; [reflexivity|split; [intros [=]|reflexivity]]. Qed.

(** Claim C6 (amended). For a piece shaped by [PendingPiece::new] and a
    [u32] offset, [add_block] returns [true] exactly when the offset is a
    multiple of 16 KiB, its slot exists and the payload has
    [min(block_size, piece_length - offset)] bytes. When it returns
    [false] the piece is unchanged. When it returns [true] the slot holds
    the payload (a duplicate replaces the old data) and [blocks_received]
    grows by one only if the slot was empty. *)
Theorem add_block_spec (p : PendingPiece) (offset : Z) (data : list Z) :
  pending_wf p -> 0 <= offset < 2 ^ 32 ->
  let block_index := Z.to_nat (offset / BLOCK_SIZE) in
  ((add_block p offset data).1 = true <->
     offset mod BLOCK_SIZE = 0 /\ (block_index < length (blocks p))%nat /\
     Z.of_nat (length data) = Z.min BLOCK_SIZE (pp_length p - offset)) /\
  ((add_block p offset data).1 = false -> (add_block p offset data).2 = p) /\
  ((add_block p offset data).1 = true ->
     blocks (add_block p offset data).2 = <[block_index := Some data]> (blocks p) /\
     blocks_received (add_block p offset data).2 =
       (if bool_decide (blocks p !! block_index = Some None) then 1 else 0)
       + blocks_received p)%nat.
Proof.
  intros Hwf Hoff block_index.
  pose proof Hwf as (Hbs & _ & _).
  unfold add_block. rewrite Hbs. fold block_index.
  destruct (Nat.leb_spec (length (blocks p)) block_index) as [Hge|Hlt]; simpl.
  { split; [split; [discriminate|lia]|split; [reflexivity|discriminate]]. }
  destruct (Z.eqb_spec (offset mod BLOCK_SIZE) 0) as [Hm|Hm]; simpl.
  2:{ split; [split; [discriminate|lia]|split; [reflexivity|discriminate]]. }
  pose proof (add_block_expected_size p offset Hwf ltac:(lia) Hm Hlt) as He.
  fold block_index in He. rewrite He.
  destruct (Z.eqb_spec (Z.of_nat (length data)) (Z.min BLOCK_SIZE (pp_length p - offset)))
    as [Hd|Hd]; simpl.
  2:{ split; [split; [discriminate|lia]|split; [reflexivity|discriminate]]. }
  split; [tauto|split; [discriminate|intros _; split; [reflexivity|]]].
  destruct (lookup_lt_is_Some_2 (blocks p) block_index Hlt) as [b Hb].
  rewrite Hb. destruct b; [case_bool_decide; [congruence|reflexivity]|].
  case_bool_decide; [reflexivity|congruence].
Qed.

(** ** Rarest-first selection *)
Module SelectFacts.

Lemma insert_by_key_perm {A} (key : A -> Z) (x : A) (l : list A) :
  insert_by_key key x l ≡ₚ x :: l.
Proof.
  induction l as [|y l IH]; simpl; [done|].
  destruct (key x <=? key y); [done|].
  rewrite IH. constructor.
Qed.

Lemma sort_by_key_perm {A} (key : A -> Z) (l : list A) : sort_by_key key l ≡ₚ l.
Proof.
  induction l as [|x l IH]; simpl; [done|].
  rewrite insert_by_key_perm. by rewrite IH.
Qed.

(** The head of [insert_by_key]. *)
Lemma head_insert_by_key {A} (key : A -> Z) (x : A) (l : list A) :
  head (insert_by_key key x l) =
    match head l with
    | None => Some x
    | Some y => if key x <=? key y then Some x else Some y
    end.
Proof. destruct l as [|y l]; simpl; [done|]. by destruct (key x <=? key y). Qed.


(** On a list ordered by index, the stable sort puts first the least
    available element of smallest index. *)
Lemma head_sort_first_min (l : list (nat * Z)) (c : nat * Z) :
  StronglySorted (fun a b => (a.1 < b.1)%nat) l ->
  head (sort_by_key snd l) = Some c -> first_min l c.
Proof.
  revert c. induction l as [|x l IH]; intros c; simpl; [discriminate|].
  intros Hs. inversion Hs as [|? ? Hs' Hall]; subst.
  rewrite Forall_forall in Hall.
  rewrite head_insert_by_key.
  destruct (head (sort_by_key snd l)) as [y|] eqn:Ey.
  - destruct (IH y Hs' eq_refl) as [Hy Hmin].
    destruct (Z.leb_spec x.2 y.2) as [Hle|Hgt]; intros [= <-].
    + split; [left|].
      intros d Hd. apply elem_of_cons in Hd as [->|Hd]; [right; lia|].
      destruct (Hmin d Hd) as [?|[? ?]]; [left; lia|].
      specialize (Hall d Hd).
      destruct (Z.eq_dec x.2 d.2); [right; lia|left; lia].
    + split; [right; exact Hy|].
      intros d Hd. apply elem_of_cons in Hd as [->|Hd]; [left; lia|].
      exact (Hmin d Hd).
  - intros [= <-].
    assert (l = []) as ->.
    { destruct l as [|z l]; [done|].
      pose proof (sort_by_key_perm snd (z :: l)) as Hp.
      destruct (sort_by_key snd (z :: l)); [|discriminate].
      apply Permutation_nil in Hp. discriminate. }
    split; [left|]. intros d Hd. apply elem_of_cons in Hd as [->|Hd]; [right; lia|].
    inversion Hd.
Qed.

Lemma omap_seq_sorted (f : nat -> option (nat * Z)) (a n : nat) :
  (forall i c, f i = Some c -> c.1 = i) ->
  StronglySorted (fun x y => (x.1 < y.1)%nat) (omap f (seq a n)) /\
  (forall c, c ∈ omap f (seq a n) -> (a <= c.1)%nat).
Proof.
  intros Hf. revert a. induction n as [|n IH]; intros a; simpl.
  - split; [constructor|]. intros c Hc. inversion Hc.
  - destruct (IH (S a)) as [Hs Hge].
    destruct (f a) as [c|] eqn:Ec.
    + apply Hf in Ec. split.
      * constructor; [exact Hs|]. apply Forall_forall. intros d Hd.
        specialize (Hge d Hd). lia.
      * intros d Hd. apply elem_of_cons in Hd as [->|Hd]; [lia|].
        specialize (Hge d Hd). lia.
    + split; [exact Hs|]. intros d Hd. specialize (Hge d Hd). lia.
Qed.

End SelectFacts.


Lemma elem_of_select_candidates (pm : PieceManager) (peer_has : list bool) (j : nat) (a : Z) :
  length (pm_have pm) = num_pieces pm ->
  (j, a) ∈ select_candidates pm peer_has <->
  select_candidate pm peer_has j /\ a = default 0 (pm_availability pm !! j).
Proof.
  intros Hlen. unfold select_candidates, select_candidate.
  rewrite list_elem_of_omap. split.
  - intros [i [Hi Hf]]. apply elem_of_seq in Hi.
    destruct (lookup_lt_is_Some_2 (pm_have pm) i ltac:(lia)) as [b Hb].
    rewrite Hb in Hf. simpl in Hf.
    destruct b; simpl in Hf; [discriminate|].
    case_bool_decide as Hps; [discriminate|].
    destruct (peer_has !! i) as [[]|] eqn:Eq; simpl in Hf; try discriminate.
    injection Hf as <- <-. repeat split; try done; try lia.
    destruct (pm_pending pm !! i) eqn:Ep; [destruct Hps; done|done].
  - intros [(Hj & Hh & Hp & Hq) ->]. exists j. split; [apply elem_of_seq; lia|].
    rewrite Hh, Hp, Hq. reflexivity.
Qed.

Lemma select_candidates_sorted (pm : PieceManager) (peer_has : list bool) :
  StronglySorted (fun x y => (x.1 < y.1)%nat) (select_candidates pm peer_has).
Proof.
  apply SelectFacts.omap_seq_sorted.
  intros i c. repeat case_match; intros; simplify_eq; done.
Qed.

(** Claim C7. With a [have] bitfield of [num_pieces] bits, [select_piece]
    returns [Some i] exactly when [i] is a piece we lack, not pending, that
    the peer has, and every other such piece is strictly more available
    or equally available with a larger index; it returns [None] exactly
    when there is no such piece. *)
Theorem select_piece_rarest_first (pm : PieceManager) (peer_has : list bool) (i : nat) :
  length (pm_have pm) = num_pieces pm ->
  let av j := default 0 (pm_availability pm !! j) in
  (select_piece pm peer_has = Some i <->
     select_candidate pm peer_has i /\
     forall j, select_candidate pm peer_has j ->
       av i < av j \/ (av i = av j /\ (i <= j)%nat)) /\
  (select_piece pm peer_has = None <-> forall j, ~ select_candidate pm peer_has j).
Proof.
  intros Hlen av.
  pose proof (select_candidates_sorted pm peer_has) as Hs.
  pose proof (SelectFacts.sort_by_key_perm snd (select_candidates pm peer_has)) as Hp.
  assert (Hhead : forall c, head (sort_by_key snd (select_candidates pm peer_has)) = Some c ->
            select_candidate pm peer_has c.1 /\ c.2 = av c.1 /\
            forall j, select_candidate pm peer_has j ->
              c.2 < av j \/ (c.2 = av j /\ (c.1 <= j)%nat)).
  { intros [ci ca] Hc. apply SelectFacts.head_sort_first_min in Hc as [Hin Hmin]; [|exact Hs].
    apply elem_of_select_candidates in Hin as [Hci ->]; [|exact Hlen].
    split; [exact Hci|split; [reflexivity|]].
    intros j Hj. apply (Hmin (j, av j)). by apply elem_of_select_candidates. }
  unfold select_piece.
  destruct (sort_by_key snd (select_candidates pm peer_has)) as [|c rest] eqn:Es.
  - assert (Hnil : select_candidates pm peer_has = []).
    { apply Permutation_nil. exact Hp. }
    split; [split; [discriminate|]|split; [|done]].
    + intros [Hi _]. assert ((i, av i) ∈ select_candidates pm peer_has) as Hin
        by (by apply elem_of_select_candidates). rewrite Hnil in Hin. inversion Hin.
    + intros _ j Hj. assert ((j, av j) ∈ select_candidates pm peer_has) as Hin
        by (by apply elem_of_select_candidates). rewrite Hnil in Hin. inversion Hin.
  - destruct (Hhead c eq_refl) as (Hc & Hca & Hmin).
    split; [split|split; [discriminate|]].
    + intros [= <-]. split; [exact Hc|]. intros j Hj. rewrite <- Hca. exact (Hmin j Hj).
    + intros [Hi Himin]. f_equal.
      destruct (Hmin i Hi) as [Hlt|[Heq Hle]]; destruct (Himin c.1 Hc) as [Hlt'|[Heq' Hle']]; lia.
    + intros Hnone. destruct (Hnone c.1 Hc).
Qed.

(** ** The have-field of [PieceManager] *)
Module HaveFacts.

Lemma insert_true_keeps (have : list bool) (i j : nat) :
  have !! j = Some true -> <[i := true]> have !! j = Some true.
Proof.
  intros Hj. destruct (decide (i = j)) as [->|Hne].
  - apply list_lookup_insert_eq. by apply lookup_lt_Some in Hj.
  - by rewrite list_lookup_insert_ne.
Qed.

Lemma insert_true_new (have : list bool) (i j : nat) :
  have !! j = Some false -> <[i := true]> have !! j = Some true -> i = j.
Proof.
  intros Hf Ht. destruct (decide (i = j)) as [->|Hne]; [done|].
  rewrite list_lookup_insert_ne in Ht by done. congruence.
Qed.

Lemma verify_piece_on_disk_true (sha1 : list Z -> list Z) (pm : PieceManager)
    (disk : Disk) (index : nat) :
  (verify_piece_on_disk sha1 pm disk index).2 = Ok true ->
  exists d, (piece_data_on_disk pm disk index).2 = Ok (Some d) /\
            piece_hash (pm_info pm) index = Some (sha1 d).
Proof.
  unfold verify_piece_on_disk.
  destruct (piece_hash (pm_info pm) index) as [h|]; [|discriminate].
  destruct (piece_length (pm_info pm) index); [|discriminate].
  destruct (piece_data_on_disk pm disk index) as [eff [[d|]|e]]; simpl; try discriminate.
  case_bool_decide as Hh; [|discriminate]. intros _. exists d. by subst.
Qed.

Lemma verify_existing_loop_have (sha1 : list Z -> list Z) (disk : Disk)
    (indices : list nat) : forall (pm : PieceManager) (valid : nat) eff r pm',
  verify_existing_loop sha1 pm disk indices valid = (eff, r, pm') ->
  pm_info pm' = pm_info pm /\ pm_save_dir pm' = pm_save_dir pm /\
  pm_availability pm' = pm_availability pm /\
  (forall j, pm_have pm !! j = Some true -> pm_have pm' !! j = Some true) /\
  (forall j, pm_have pm !! j = Some false -> pm_have pm' !! j = Some true ->
     exists d, (piece_data_on_disk pm disk j).2 = Ok (Some d) /\
               piece_hash (pm_info pm) j = Some (sha1 d)).
Proof.
  induction indices as [|index rest IH]; intros pm valid eff r pm' Hrun; simpl in Hrun.
  - injection Hrun as <- <- <-. simpl. split_and!; try done. intros j Hf Ht. congruence.
  - destruct (verify_piece_on_disk sha1 pm disk index) as [eff0 r0] eqn:Ev.
    destruct r0 as [[]|e].
    + destruct (verify_existing_loop sha1 _ disk rest (S valid)) as [[eff1 r1] pm1] eqn:El.
      injection Hrun as <- <- <-.
      destruct (IH _ _ _ _ _ El) as (Hi & Hs & Ha & Hmono & Hnew); simpl in *.
      split_and!; try done.
      * intros j Hj. apply Hmono. by apply insert_true_keeps.
      * intros j Hf Ht. destruct (decide (j = index)) as [->|Hne].
        { apply (verify_piece_on_disk_true sha1 pm disk index). by rewrite Ev. }
        apply Hnew; [|done]. by rewrite list_lookup_insert_ne.
    + destruct (verify_existing_loop sha1 pm disk rest valid) as [[eff1 r1] pm1] eqn:El.
      injection Hrun as <- <- <-. exact (IH _ _ _ _ _ El).
    + injection Hrun as <- <- <-. split_and!; try done. intros j Hf Ht. congruence.
Qed.

End HaveFacts.

(** Claim C2. For every state-changing operation of [PieceManager]: a
    set have-bit stays set; a bit that goes from clear to set is the bit
    of a piece whose SHA-1 equals the metainfo hash, either the assembled
    pending piece ([verify_and_save]) or the data read from disk
    ([verify_existing]); and on a hash mismatch [verify_and_save] returns
    [Ok(false)], removes the piece from [pending] and leaves
    [piece_availability] and the have-field unchanged. *)
Theorem have_bit_set_only_after_hash_match (sha1 : list Z -> list Z) (op : Op)
    (pm pm' : PieceManager) :
  run_op sha1 op pm = Some pm' ->
  (forall i, pm_have pm !! i = Some true -> pm_have pm' !! i = Some true) /\
  (forall i, pm_have pm !! i = Some false -> pm_have pm' !! i = Some true ->
     (exists io_ok p d, op = OpVerifyAndSave i io_ok /\ pm_pending pm !! i = Some p /\
        Pending.data p = Some d /\ piece_hash (pm_info pm) i = Some (sha1 d)) \/
     (exists disk d, op = OpVerifyExisting disk /\
        (piece_data_on_disk pm disk i).2 = Ok (Some d) /\
        piece_hash (pm_info pm) i = Some (sha1 d))) /\
  (forall i io_ok p d h, op = OpVerifyAndSave i io_ok -> pm_pending pm !! i = Some p ->
     Pending.data p = Some d -> piece_hash (pm_info pm) i = Some h -> sha1 d <> h ->
     (verify_and_save sha1 pm io_ok i).1.2 = Ok false /\
     pm_pending pm' = delete i (pm_pending pm) /\
     pm_availability pm' = pm_availability pm /\ pm_have pm' = pm_have pm).
Proof.
  assert (Hsame : forall pm', pm_have pm' = pm_have pm ->
            (forall i, pm_have pm !! i = Some true -> pm_have pm' !! i = Some true) /\
            (forall i, pm_have pm !! i = Some false -> pm_have pm' !! i = Some true -> False)).
  { intros pm0 ->. split; [done|]. intros i Hf Ht. congruence. }
  destruct op as [peer add|index|index offset data|index io_ok|index|piece b peer|disk];
    simpl; intros Hrun.
  - unfold update_availability in Hrun.
    destruct (update_availability_aux _ _ _ _); simpl in Hrun; [|discriminate].
    injection Hrun as <-. destruct (Hsame _ eq_refl) as [H1 H2].
    split_and!; [done|intros; exfalso; eauto|discriminate].
  - injection Hrun as <-. unfold start_piece.
    destruct (piece_length _ _); simpl; destruct (Hsame pm eq_refl) as [H1 H2];
      (split_and!; [done|intros; exfalso; eauto|discriminate]).
  - injection Hrun as <-. unfold pm_add_block.
    destruct (pm_pending pm !! index) as [p|]; simpl;
      [destruct (add_block p offset data) as [[] p']; simpl|];
      destruct (Hsame pm eq_refl) as [H1 H2];
      (split_and!; [done|intros; exfalso; eauto|discriminate]).
  - injection Hrun as <-. unfold verify_and_save.
    destruct (pm_pending pm !! index) as [p|] eqn:Ep; simpl;
      [|destruct (Hsame pm eq_refl) as [H1 H2];
        split_and!; [done|intros; exfalso; eauto|intros; congruence]].
    destruct (Pending.data p) as [d|] eqn:Ed; simpl;
      [|destruct (Hsame pm eq_refl) as [H1 H2];
        split_and!; [done|intros; exfalso; eauto|intros; congruence]].
    destruct (piece_hash (pm_info pm) index) as [h|] eqn:Eh; simpl;
      [|destruct (Hsame pm eq_refl) as [H1 H2];
        split_and!; [done|intros; exfalso; eauto|intros; congruence]].
    case_bool_decide as Hmatch; simpl.
    + destruct (write_piece pm io_ok index d) as [eff [u|e]]; simpl.
      * split_and!.
        -- intros i Hi. by apply HaveFacts.insert_true_keeps.
        -- intros i Hf Ht. apply HaveFacts.insert_true_new in Ht as <-; [|done].
           left. exists io_ok, p, d. subst. done.
        -- intros i io p' d' h' [= <- <-] Ep' Ed' Eh' Hne. congruence.
      * destruct (Hsame pm eq_refl) as [H1 H2].
        split_and!; [done|intros; exfalso; eauto|].
        intros i io p' d' h' [= <- <-] Ep' Ed' Eh' Hne. congruence.
    + split_and!; [done|intros i Hf Ht; congruence|].
      intros i io p' d' h' [= <- <-] Ep' Ed' Eh' Hne.
      unfold verify_and_save. rewrite Ep, Ed, Eh.
      rewrite bool_decide_false by done. done.
  - injection Hrun as <-. destruct (Hsame (cancel_piece pm index) eq_refl) as [H1 H2].
    split_and!; [done|intros; exfalso; eauto|discriminate].
  - injection Hrun as <-. destruct (Hsame (mark_block_requested pm piece b peer) eq_refl) as [H1 H2].
    split_and!; [done|intros; exfalso; eauto|discriminate].
  - injection Hrun as <-. unfold verify_existing.
    destruct (verify_existing_loop sha1 pm disk (seq 0 (num_pieces pm)) 0) as [[eff r] pm1] eqn:El.
    simpl. destruct (HaveFacts.verify_existing_loop_have sha1 disk _ _ _ _ _ _ El)
      as (_ & _ & _ & Hmono & Hnew).
    split_and!; [exact Hmono| |discriminate].
    intros i Hf Ht. right. destruct (Hnew i Hf Ht) as [d Hd]. exists disk, d. done.
Qed.

(** ** Path validation *)
Module PathFacts.

Lemma validate_components_ok (cs : list Component) :
  validate_components cs = Ok tt <-> Forall (fun c => bad_component c = false) cs.
Proof.
  induction cs as [|c cs IH]; simpl; [split; [constructor|done]|].
  rewrite Forall_cons, <- IH.
  destruct c; simpl; split; try (intros [? ?]; discriminate); try discriminate;
    try (intros H; split; [done|exact H]); try (intros [_ H]; exact H).
Qed.

Lemma validate_components_err (cs : list Component) (e : EngineError) :
  validate_components cs = Err e -> e = Protocol InvalidTorrent.
Proof.
  induction cs as [|c cs IH]; simpl; [discriminate|].
  destruct c; simpl; try (intros [= <-]; done); exact IH.
Qed.

Lemma validate_components_bad (cs : list Component) :
  existsb bad_component cs = true -> validate_components cs = Err (Protocol InvalidTorrent).
Proof.
  induction cs as [|c cs IH]; simpl; [discriminate|].
  destruct c; simpl; try done; exact IH.
Qed.

Lemma validate_components_result (cs : list Component) :
  validate_components cs = Ok tt \/ validate_components cs = Err (Protocol InvalidTorrent).
Proof.
  destruct (validate_components cs) as [[]|e] eqn:E; [by left|right].
  by rewrite (validate_components_err cs e E).
Qed.

Lemma join_safe (base cs : PathBuf) :
  Forall (fun c => bad_component c = false) cs -> join base cs = base ++ cs.
Proof.
  unfold join. destruct cs as [|c cs]; [done|]. intros Hf.
  apply Forall_cons in Hf as [Hc _]. by destruct c.
Qed.


Lemma file_path_for_spec (info : Info) (save_dir : PathBuf) (fi : FileInfo) :
  match file_path_for info save_dir fi with
  | Ok p => under save_dir p
  | Err e => e = Protocol InvalidTorrent
  end.
Proof.
  unfold file_path_for.
  destruct (validate_components_result (components (name info))) as [Hn|Hn]; rewrite Hn;
    [|by destruct (is_single_file info)].
  apply validate_components_ok in Hn.
  destruct (is_single_file info).
  - exists (components (name info)). split; [by apply join_safe|done].
  - destruct (validate_components_result (components (fi_path fi))) as [Hp|Hp]; rewrite Hp; [|done].
    apply validate_components_ok in Hp.
    exists (components (name info) ++ components (fi_path fi)).
    rewrite !join_safe by done. rewrite app_assoc. split; [done|].
    by apply Forall_app.
Qed.

Lemma file_path_for_bad (info : Info) (save_dir : PathBuf) (slice : nat * Z * Z) :
  slice_bad info slice = true ->
  file_path_for info save_dir (file_info_at info slice.1.1) = Err (Protocol InvalidTorrent).
Proof.
  unfold slice_bad, file_path_for. intros Hb.
  apply orb_true_iff in Hb as [Hn|Hp].
  - rewrite (validate_components_bad _ Hn). by destruct (is_single_file info).
  - apply andb_true_iff in Hp as [Hm Hp]. apply negb_true_iff in Hm. rewrite Hm.
    destruct (validate_components_result (components (name info))) as [Hn|Hn]; rewrite Hn; [|done].
    by rewrite (validate_components_bad _ Hp).
Qed.

End PathFacts.

Module LoopFacts.
Import PathFacts.


Lemma effects_under_app (sd : PathBuf) (l1 l2 : list Effect) :
  effects_under sd l1 -> effects_under sd l2 -> effects_under sd (l1 ++ l2).
Proof.
  intros H1 H2 e p He. apply elem_of_app in He as [He|He]; [apply H1|apply H2]; done.
Qed.

Lemma effects_under_path (sd p : PathBuf) (l : list Effect) :
  under sd p -> (forall e q, e ∈ l -> effect_file e = Some q -> q = p) -> effects_under sd l.
Proof. intros Hp Hl e q He Hq. rewrite (Hl e q He Hq). exact Hp. Qed.

Lemma write_loop_spec (info : Info) (sd : PathBuf) (io_ok : PathBuf -> bool)
    (slices : list (nat * Z * Z)) : forall (data : list Z) (off : nat),
  effects_under sd (write_loop info sd io_ok slices data off).1 /\
  (existsb (slice_bad info) slices = true ->
     (write_loop info sd io_ok slices data off).2 = Err (Protocol InvalidTorrent) \/
     (write_loop info sd io_ok slices data off).2 = Err (Storage Io)).
Proof.
  induction slices as [|[[fidx fo] len] rest IH]; intros data off; simpl.
  - split; [intros e p He; inversion He|discriminate].
  - pose proof (file_path_for_spec info sd (file_info_at info fidx)) as Hf.
    destruct (file_path_for info sd (file_info_at info fidx)) as [path|e] eqn:Ep.
    + assert (Hmk : effects_under sd
                (match parent path with Some par => [CreateDirAll par] | None => [] end)).
      { destruct (parent path); intros e q He; [|inversion He].
        apply list_elem_of_singleton in He as ->. discriminate. }
      destruct (io_ok path); simpl.
      * destruct (write_loop info sd io_ok rest data (off + Z.to_nat len)%nat) as [eff r] eqn:El.
        destruct (IH data (off + Z.to_nat len)%nat) as [IH1 IH2]. rewrite El in IH1, IH2. simpl in *.
        split.
        -- apply effects_under_app; [exact Hmk|].
           apply (effects_under_app sd [_; _] eff); [|exact IH1].
           apply (effects_under_path sd path); [exact Hf|].
           intros e q He Hq. apply elem_of_cons in He as [->|He];
             [|apply list_elem_of_singleton in He as ->]; simpl in Hq; congruence.
        -- intros Hb. apply orb_true_iff in Hb as [Hb|Hb]; [|exact (IH2 Hb)].
           pose proof (file_path_for_bad info sd (fidx, fo, len) Hb) as Hb'. simpl in Hb'. congruence.
      * split; [|intros _; by right].
        apply effects_under_app; [exact Hmk|].
        apply (effects_under_path sd path); [exact Hf|].
        intros e q He Hq. apply list_elem_of_singleton in He as ->. simpl in Hq. congruence.
    + simpl. split; [intros e' p He; inversion He|]. intros _. left. by subst.
Qed.

Lemma read_loop_spec (info : Info) (sd : PathBuf) (disk : Disk)
    (slices : list (nat * Z * Z)) : forall (acc : list Z),
  effects_under sd (read_loop info sd disk slices acc).1 /\
  (existsb (slice_bad info) slices = true ->
     (read_loop info sd disk slices acc).2 = Err (Protocol InvalidTorrent) \/
     (read_loop info sd disk slices acc).2 = Err (Storage Io) \/
     (read_loop info sd disk slices acc).2 = Ok None).
Proof.
  induction slices as [|[[fidx fo] len] rest IH]; intros acc; simpl.
  - split; [intros e p He; inversion He|discriminate].
  - pose proof (file_path_for_spec info sd (file_info_at info fidx)) as Hf.
    destruct (file_path_for info sd (file_info_at info fidx)) as [path|e] eqn:Ep.
    + assert (Hbad : slice_bad info (fidx, fo, len) = false).
      { destruct (slice_bad info (fidx, fo, len)) eqn:Eb; [|done].
        pose proof (file_path_for_bad info sd (fidx, fo, len) Eb) as Hb'. simpl in Hb'. congruence. }
      rewrite Hbad. simpl.
      destruct (disk_content disk path) as [content|]; simpl.
      * destruct (disk_seek_ok disk path fo); simpl.
        { destruct (Z.of_nat (length content) <? fo + len); simpl.
          -- split; [|intros _; by right; right].
             apply (effects_under_path sd path); [exact Hf|].
             intros e q He Hq. apply elem_of_cons in He as [->|He];
               [|apply list_elem_of_singleton in He as ->]; simpl in Hq; congruence.
          -- destruct (read_loop info sd disk rest _) as [eff r] eqn:El.
             destruct (IH (acc ++ take (Z.to_nat len) (drop (Z.to_nat fo) content))) as [IH1 IH2].
             rewrite El in IH1, IH2. simpl in *. split; [|exact IH2].
             apply (effects_under_app sd [_; _] eff); [|exact IH1].
             apply (effects_under_path sd path); [exact Hf|].
             intros e q He Hq. apply elem_of_cons in He as [->|He];
               [|apply list_elem_of_singleton in He as ->]; simpl in Hq; congruence. }
        split; [|intros _; by right; left].
        apply (effects_under_path sd path); [exact Hf|].
        intros e q He Hq. apply list_elem_of_singleton in He as ->. simpl in Hq. congruence.
      * split; [|intros _; by right; right].
        apply (effects_under_path sd path); [exact Hf|].
        intros e q He Hq. apply list_elem_of_singleton in He as ->. simpl in Hq. congruence.
    + simpl. split; [intros e' p He; inversion He|]. intros _. left. by subst.
Qed.

Lemma file_path_for_good (info : Info) (sd : PathBuf) (slice : nat * Z * Z) :
  slice_bad info slice = false ->
  exists p, file_path_for info sd (file_info_at info slice.1.1) = Ok p.
Proof.
  pose proof (file_path_for_spec info sd (file_info_at info slice.1.1)) as Hs.
  destruct (file_path_for info sd (file_info_at info slice.1.1)) as [p|e] eqn:Ep; [eauto|].
  subst e. unfold slice_bad. unfold file_path_for in Ep.
  destruct (existsb bad_component (components (name info))) eqn:Hn; [done|].
  assert (Hvn : validate_components (components (name info)) = Ok tt).
  { apply validate_components_ok. apply Forall_forall. intros c Hc.
    destruct (bad_component c) eqn:Hb; [|done].
    exfalso. assert (existsb bad_component (components (name info)) = true) as Ht
      by (apply existsb_exists; exists c; split; [by apply list_elem_of_In|done]).
    congruence. }
  rewrite Hvn in Ep. simpl.
  destruct (is_single_file info); simpl; [discriminate|].
  destruct (existsb bad_component (components (fi_path (file_info_at info slice.1.1)))) eqn:Hp;
    [done|].
  assert (Hvp : validate_components (components (fi_path (file_info_at info slice.1.1))) = Ok tt).
  { apply validate_components_ok. apply Forall_forall. intros c Hc.
    destruct (bad_component c) eqn:Hb; [|done].
    exfalso. assert (existsb bad_component (components (fi_path (file_info_at info slice.1.1)))
                     = true) as Ht by (apply existsb_exists; exists c; split; [by apply list_elem_of_In|done]).
    congruence. }
  rewrite Hvp in Ep. discriminate.
Qed.

Lemma write_loop_good (info : Info) (sd : PathBuf) (io_ok : PathBuf -> bool)
    (slices : list (nat * Z * Z)) : forall (data : list Z) (off : nat),
  existsb (slice_bad info) slices = false -> (forall p, io_ok p = true) ->
  (write_loop info sd io_ok slices data off).2 = Ok tt.
Proof.
  induction slices as [|[[fidx fo] len] rest IH]; intros data off Hb Hio; simpl; [done|].
  simpl in Hb. apply orb_false_iff in Hb as [Hb Hrest].
  destruct (file_path_for_good info sd (fidx, fo, len) Hb) as [path Ep]. simpl in Ep.
  rewrite Ep, Hio. simpl.
  destruct (write_loop info sd io_ok rest data (off + Z.to_nat len)%nat) as [eff r] eqn:El.
  simpl. pose proof (IH data (off + Z.to_nat len)%nat Hrest Hio) as H. by rewrite El in H.
Qed.

Lemma read_loop_good (info : Info) (sd : PathBuf) (disk : Disk)
    (slices : list (nat * Z * Z)) : forall (acc : list Z),
  existsb (slice_bad info) slices = false -> (forall p o, disk_seek_ok disk p o = true) ->
  exists x, (read_loop info sd disk slices acc).2 = Ok x.
Proof.
  induction slices as [|[[fidx fo] len] rest IH]; intros acc Hb Hseek; simpl; [eauto|].
  simpl in Hb. apply orb_false_iff in Hb as [Hb Hrest].
  destruct (file_path_for_good info sd (fidx, fo, len) Hb) as [path Ep]. simpl in Ep.
  rewrite Ep. destruct (disk_content disk path) as [content|]; simpl; [|eauto].
  rewrite Hseek. simpl.
  destruct (Z.of_nat (length content) <? fo + len); simpl; [eauto|].
  destruct (read_loop info sd disk rest _) as [eff r] eqn:El. simpl.
  destruct (IH (acc ++ take (Z.to_nat len) (drop (Z.to_nat fo) content)) Hrest Hseek) as [x Hx].
  rewrite El in Hx. eauto.
Qed.

End LoopFacts.


(** Claim C1, as stated: every [write_piece] and [verify_piece_on_disk]
    of a torrent with a rejected path component fails with
    [InvalidTorrent]. Refuted: for piece 0 of [traversal_info], which
    lies in [a.txt] only, [write_piece] opens and writes
    [dl/t/a.txt] and returns [Ok(())], and [verify_piece_on_disk]
    returns [Ok(true)] when the data on disk matches. *)
Lemma write_piece_ok_despite_traversal_file :
  existsb bad_component (components "../../etc/passwd") = true /\
  write_piece (PieceManager_new traversal_info [Normal "dl"]) (fun _ => true) 0
    (repeat 5 10)
  = ([CreateDirAll [Normal "dl"; Normal "t"];
      OpenWrite [Normal "dl"; Normal "t"; Normal "a.txt"];
      WriteAt [Normal "dl"; Normal "t"; Normal "a.txt"] 0 (repeat 5 10)], Ok tt) /\
  (verify_piece_on_disk (fun _ => [1]) (PieceManager_new traversal_info [Normal "dl"])
     (mkDisk (fun _ => Some (repeat 5 10)) (fun _ _ => true)) 0).2 = Ok true.
Proof. split; [reflexivity|split; reflexivity]. Qed.

Lemma files_for_piece_hash (info : Info) (index : nat) :
  files_for_piece info index <> [] -> is_Some (piece_hash info index) /\
  is_Some (piece_length info index).
Proof.
  unfold files_for_piece, piece_length, piece_hash.
  destruct (Nat.ltb_spec index (length (pieces info))) as [Hlt|]; [|done].
  intros _. split; [by apply lookup_lt_is_Some_2|done].
Qed.

Lemma piece_hash_length (info : Info) (index : nat) (h : list Z) :
  piece_hash info index = Some h -> is_Some (piece_length info index).
Proof.
  unfold piece_hash, piece_length. intros Hh.
  apply lookup_lt_Some in Hh. destruct (Nat.ltb_spec index (length (pieces info))); [done|lia].
Qed.

(** Claim C1 (amended). [write_piece] and [verify_piece_on_disk]
    validate, slice by slice, the torrent name and (multi-file mode) the
    slice's file path just before opening that file, so:
    - every file they open, read or write is the save directory followed
      by components that are neither [..], a root nor a prefix;
    - a piece that touches a file with a rejected component never
      succeeds: [write_piece] fails with [InvalidTorrent], or with an I/O
      error on an earlier file; [verify_piece_on_disk] fails with
      [InvalidTorrent] or with an I/O error from a seek on an earlier
      file, or reports the piece absent;
    - when the torrent name itself is rejected, neither touches any file,
      and both fail with [InvalidTorrent] for every piece that lies in at
      least one file;
    - for a piece that touches only valid files, validation never fails:
      [write_piece] succeeds when every file operation succeeds, and
      [verify_piece_on_disk] returns [Ok] when every seek succeeds, with
      [true] exactly when the data read from the files has the expected
      SHA-1. *)
Theorem piece_paths_validated (sha1 : list Z -> list Z) (pm : PieceManager)
    (io_ok : PathBuf -> bool) (disk : Disk) (index : nat) (data : list Z) :
  let w := write_piece pm io_ok index data in
  let v := verify_piece_on_disk sha1 pm disk index in
  let slices := files_for_piece (pm_info pm) index in
  effects_under (pm_save_dir pm) (w.1 ++ v.1) /\
  (existsb (slice_bad (pm_info pm)) slices = true ->
     (w.2 = Err (Protocol InvalidTorrent) \/ w.2 = Err (Storage Io)) /\
     (v.2 = Err (Protocol InvalidTorrent) \/ v.2 = Err (Storage Io) \/ v.2 = Ok false)) /\
  (existsb bad_component (components (name (pm_info pm))) = true ->
     w.1 = [] /\ v.1 = [] /\
     (slices <> [] ->
        w.2 = Err (Protocol InvalidTorrent) /\ v.2 = Err (Protocol InvalidTorrent))) /\
  (existsb (slice_bad (pm_info pm)) slices = false ->
     ((forall p, io_ok p = true) -> w.2 = Ok tt) /\
     ((forall p o, disk_seek_ok disk p o = true) -> exists b, v.2 = Ok b) /\
     (v.2 = Ok true <->
        exists d, (piece_data_on_disk pm disk index).2 = Ok (Some d) /\
                  piece_hash (pm_info pm) index = Some (sha1 d))).
Proof.
  intros w v slices.
  destruct (LoopFacts.write_loop_spec (pm_info pm) (pm_save_dir pm) io_ok
              (files_for_piece (pm_info pm) index) data 0) as [Hw1 Hw2].
  destruct (LoopFacts.read_loop_spec (pm_info pm) (pm_save_dir pm) disk
              (files_for_piece (pm_info pm) index) []) as [Hr1 Hr2].
  assert (Hv : (v.1 = [] \/ v.1 = (piece_data_on_disk pm disk index).1) /\
     (existsb (slice_bad (pm_info pm)) (files_for_piece (pm_info pm) index) = true ->
        v.2 = Err (Protocol InvalidTorrent) \/ v.2 = Err (Storage Io) \/ v.2 = Ok false)).
  { unfold v, verify_piece_on_disk.
    destruct (piece_hash (pm_info pm) index); [|split; [by left|by right; right]].
    destruct (piece_length (pm_info pm) index); [|split; [by left|by right; right]].
    unfold piece_data_on_disk in *.
    destruct (read_loop (pm_info pm) (pm_save_dir pm) disk (files_for_piece (pm_info pm) index) [])
      as [eff [[d|]|e]] eqn:Er; simpl in *.
    - split; [by right|]. intros Hb. destruct (Hr2 Hb) as [?|[?|?]]; discriminate.
    - split; [by right|]. by right; right.
    - split; [by right|]. intros Hb. destruct (Hr2 Hb) as [He|[He|He]]; [| |discriminate].
      + left. by injection He as ->.
      + right; left. by injection He as ->. }
  split_and!.
  - apply LoopFacts.effects_under_app; [exact Hw1|].
    destruct Hv as [[-> | ->] _]; [intros e p He; inversion He|exact Hr1].
  - intros Hb. split; [exact (Hw2 Hb)|exact (proj2 Hv Hb)].
  - intros Hn. unfold slices.
    destruct (files_for_piece (pm_info pm) index) as [|[[fidx fo] len] rest] eqn:Ef.
    + assert (Hv1 : v.1 = []).
      { unfold v, verify_piece_on_disk, piece_data_on_disk. rewrite Ef.
        destruct (piece_hash (pm_info pm) index); [|done].
        destruct (piece_length (pm_info pm) index); done. }
      unfold w, write_piece. rewrite Ef. split_and!; [done|exact Hv1|done].
    + assert (Hfp : file_path_for (pm_info pm) (pm_save_dir pm) (file_info_at (pm_info pm) fidx)
                    = Err (Protocol InvalidTorrent)).
      { apply (PathFacts.file_path_for_bad (pm_info pm) (pm_save_dir pm) (fidx, fo, len)).
        unfold slice_bad. by rewrite Hn. }
      destruct (files_for_piece_hash (pm_info pm) index) as [[h Hh] [l Hl]]; [by rewrite Ef|].
      assert (Hw : w = ([], Err (Protocol InvalidTorrent))).
      { unfold w, write_piece. rewrite Ef. simpl. by rewrite Hfp. }
      assert (Hvv : v = ([], Err (Protocol InvalidTorrent))).
      { unfold v, verify_piece_on_disk, piece_data_on_disk.
        rewrite Hh, Hl, Ef. simpl. by rewrite Hfp. }
      rewrite Hw, Hvv. split_and!; done.
  - intros Hgood. split_and!.
    + intros Hio. apply LoopFacts.write_loop_good; done.
    + intros Hseek. unfold v, verify_piece_on_disk.
      destruct (piece_hash (pm_info pm) index); [|by eexists].
      destruct (piece_length (pm_info pm) index); [|by eexists].
      unfold piece_data_on_disk.
      destruct (LoopFacts.read_loop_good (pm_info pm) (pm_save_dir pm) disk
                  (files_for_piece (pm_info pm) index) [] Hgood Hseek) as [x Hx].
      destruct (read_loop (pm_info pm) (pm_save_dir pm) disk (files_for_piece (pm_info pm) index) [])
        as [eff r]. simpl in Hx. subst r. destruct x; by eexists.
    + split; [apply HaveFacts.verify_piece_on_disk_true|].
      intros (d & Hd & Hh). unfold v, verify_piece_on_disk. rewrite Hh.
      destruct (piece_hash_length _ _ _ Hh) as [l Hl]. rewrite Hl.
      destruct (piece_data_on_disk pm disk index) as [eff r]. simpl in Hd. subst r. simpl.
      by rewrite bool_decide_true.
Qed.


(** ** Witnesses of the partition, block and selection theorems *)

Lemma init_segments_partition_witness :
  (1 <= 104857600 < u64_modulus /\ 1 <= 16 < u64_modulus /\ 1 <= 1048576 < u64_modulus) /\
  Z.of_nat (length (init_segments 104857600 16 1048576)) = 16.
Proof.
  assert (H1 : 1 <= 104857600 < u64_modulus) by (unfold u64_modulus; lia).
  assert (H2 : 1 <= 16 < u64_modulus) by (unfold u64_modulus; lia).
  assert (H3 : 1 <= 1048576 < u64_modulus) by (unfold u64_modulus; lia).
  split; [split; [exact H1|split; [exact H2|exact H3]]|].
  destruct (init_segments_partition 104857600 16 1048576 H1 H2 H3) as [Hn [Hl _]].
  rewrite Hl. exact Hn.
Defined.

Lemma add_block_spec_witness :
  pending_wf (PendingPiece_new 0 1) /\ 0 <= 0 < 2 ^ 32 /\
  (add_block (PendingPiece_new 0 1) 0 [7]).1 = true.
Proof.
  assert (Hwf : pending_wf (PendingPiece_new 0 1))
    by (apply PendingPiece_new_wf; unfold u64_modulus; lia).
  assert (Hoff : 0 <= 0 < 2 ^ 32) by lia.
  split; [exact Hwf|split; [exact Hoff|]].
  apply (proj2 (proj1 (add_block_spec (PendingPiece_new 0 1) 0 [7] Hwf Hoff))).
  split; [reflexivity|split; [vm_compute; lia|reflexivity]].
Defined.

Lemma select_piece_rarest_first_witness :
  length (pm_have (PieceManager_new traversal_info [Normal "dl"])) =
    num_pieces (PieceManager_new traversal_info [Normal "dl"]) /\
  select_candidate (PieceManager_new traversal_info [Normal "dl"]) [true; true] 0.
Proof.
  assert (Hl : length (pm_have (PieceManager_new traversal_info [Normal "dl"])) =
                 num_pieces (PieceManager_new traversal_info [Normal "dl"])) by reflexivity.
  split; [exact Hl|].
  apply (proj1 (proj1 (proj1 (select_piece_rarest_first _ [true; true] 0 Hl)) eq_refl)).
Defined.

Lemma have_bit_set_only_after_hash_match_witness :
  let io := fun _ : PathBuf => true in
  let pm_ok := Samples.pm_with_piece [1; 2; 3] in
  let pm_bad := Samples.pm_with_piece [1; 2; 4] in
  let pm_new := PieceManager_new Samples.hash_info [Normal "dl"] in
  (* [verify_and_save] of a block whose hash matches sets the bit *)
  (pm_have pm_ok !! 0%nat = Some false /\
   pm_have (verify_and_save Samples.sum_hash pm_ok io 0%nat).2 !! 0%nat = Some true /\
   exists p d, pm_pending pm_ok !! 0%nat = Some p /\ Pending.data p = Some d /\
               piece_hash Samples.hash_info 0%nat = Some (Samples.sum_hash d)) /\
  (* a mismatch returns [Ok(false)] and drops the pending piece *)
  ((verify_and_save Samples.sum_hash pm_bad io 0%nat).1.2 = Ok false /\
   pm_pending (verify_and_save Samples.sum_hash pm_bad io 0%nat).2 = delete 0%nat (pm_pending pm_bad) /\
   pm_have (verify_and_save Samples.sum_hash pm_bad io 0%nat).2 = pm_have pm_bad) /\
  (* [verify_existing] sets the bit of a piece whose data on disk matches *)
  (pm_have pm_new !! 0%nat = Some false /\
   pm_have (verify_existing Samples.sum_hash pm_new (Samples.disk_with [1; 2; 3])).2 !! 0%nat = Some true /\
   exists d, (piece_data_on_disk pm_new (Samples.disk_with [1; 2; 3]) 0%nat).2 = Ok (Some d) /\
             piece_hash Samples.hash_info 0%nat = Some (Samples.sum_hash d)).
Proof.
  intros io pm_ok pm_bad pm_new.
  split; [|split].
  - assert (Hr : run_op Samples.sum_hash (OpVerifyAndSave 0%nat io) pm_ok =
                   Some (verify_and_save Samples.sum_hash pm_ok io 0%nat).2) by reflexivity.
    assert (Hf : pm_have pm_ok !! 0%nat = Some false) by reflexivity.
    assert (Ht : pm_have (verify_and_save Samples.sum_hash pm_ok io 0%nat).2 !! 0%nat = Some true)
      by reflexivity.
    split; [exact Hf|split; [exact Ht|]].
    destruct (proj1 (proj2 (have_bit_set_only_after_hash_match _ _ _ _ Hr)) 0%nat Hf Ht)
      as [(io' & p & d & _ & Hp & Hd & Hh)|(disk & d & Hop & _)]; [|discriminate].
    exists p, d. split_and!; done.
  - assert (Hr : run_op Samples.sum_hash (OpVerifyAndSave 0%nat io) pm_bad =
                   Some (verify_and_save Samples.sum_hash pm_bad io 0%nat).2) by reflexivity.
    set (p := default (PendingPiece_new 0 0) (pm_pending pm_bad !! 0%nat)).
    assert (Hp : pm_pending pm_bad !! 0%nat = Some p) by reflexivity.
    assert (Hd : Pending.data p = Some [1; 2; 4]) by reflexivity.
    assert (Hh : piece_hash (pm_info pm_bad) 0%nat = Some [6]) by reflexivity.
    assert (Hne : Samples.sum_hash [1; 2; 4] <> [6]) by discriminate.
    destruct (proj2 (proj2 (have_bit_set_only_after_hash_match _ _ _ _ Hr))
                0%nat io p [1; 2; 4] [6] eq_refl Hp Hd Hh Hne) as (H1 & H2 & _ & H4).
    split_and!; assumption.
  - assert (Hr : run_op Samples.sum_hash (OpVerifyExisting (Samples.disk_with [1; 2; 3])) pm_new =
                   Some (verify_existing Samples.sum_hash pm_new (Samples.disk_with [1; 2; 3])).2)
      by reflexivity.
    assert (Hf : pm_have pm_new !! 0%nat = Some false) by reflexivity.
    assert (Ht : pm_have (verify_existing Samples.sum_hash pm_new (Samples.disk_with [1; 2; 3])).2 !! 0%nat =
                   Some true) by (vm_compute; reflexivity).
    split; [exact Hf|split; [exact Ht|]].
    destruct (proj1 (proj2 (have_bit_set_only_after_hash_match _ _ _ _ Hr)) 0%nat Hf Ht)
      as [(io' & p & d & Hop & _)|(disk & d & Hop & Hd & Hh)]; [discriminate|].
    injection Hop as <-. exists d. split; done.
Defined.

(** ** Resume of a failed download *)
Module ResumeFacts.
Import Path Types Engine Samples.

Lemma state_eqb_paused (st : DownloadState) : state_eqb st Paused = true -> st = Paused.
Proof. destruct st; simpl; congruence. Qed.

(** [resume] never changes the entry of a download that is not paused. *)
Lemma resume_keeps_unpaused (e : EngineState) (x id : string) (d : ManagedDownload) :
  downloads e !! id = Some d -> state_eqb (st_state (md_status d)) Paused = false ->
  downloads (resume e x).2 !! id = Some d.
Proof.
  intros Hd Hnp. unfold resume.
  destruct (downloads e !! x) as [dx|] eqn:Hx; [|done].
  destruct (state_eqb (st_state (md_status dx)) Paused) eqn:Hp; simpl; [|done].
  destruct (md_url (st_metadata (md_status dx))); [|done].
  unfold start_download, update_state. rewrite Hx. simpl.
  destruct (decide (x = id)) as [->|Hne]; [congruence|].
  rewrite lookup_alter_ne by done. rewrite lookup_insert_ne by done. exact Hd.
Qed.

Lemma resume_each_keeps_unpaused (ss : list DownloadStatus) :
  forall (e : EngineState) (id : string) (d : ManagedDownload),
  downloads e !! id = Some d -> state_eqb (st_state (md_status d)) Paused = false ->
  downloads (Adapter.resume_each e ss) !! id = Some d.
Proof.
  induction ss as [|s rest IH]; intros e id d Hd Hnp; simpl; [done|].
  apply IH; [|done].
  destruct (Adapter.paused_or_failed (st_state s)); [|done].
  by apply resume_keeps_unpaused.
Qed.

Lemma stopped_elem (e : EngineState) (id : string) (d : ManagedDownload) :
  downloads e !! id = Some d -> is_stopped (st_state (md_status d)) = true ->
  md_status d ∈ stopped e.
Proof.
  intros Hd Hs. unfold stopped. apply list_elem_of_filter. split; [done|].
  apply list_elem_of_fmap. exists (id, d). split; [done|].
  by apply elem_of_map_to_list.
Qed.

End ResumeFacts.
Import Types Engine Samples.

(** Claim C8. A download whose task fails stays in the map with state
    [Error{kind, message, retryable}], but [resume] accepts only a
    [Paused] download: for a failed download it returns
    [InvalidState "resume"] and changes nothing. The application's
    [resume_all] lists that download among the stopped ones and calls
    [resume] on it, as it does for every [Paused] or [Error] download, but
    drops the error and returns [Ok]: the failed download is left as it
    was. *)
Theorem resume_rejects_failed_download (e : EngineState) (id : string) (d : ManagedDownload)
    (kind message : string) (retryable : bool) :
  downloads e !! id = Some d -> st_state (md_status d) = Error kind message retryable ->
  resume e id = (Err (InvalidState "resume"), e) /\
  md_status d ∈ stopped e /\
  Adapter.paused_or_failed (st_state (md_status d)) = true /\
  (Adapter.resume_all e).1 = Ok tt /\
  downloads (Adapter.resume_all e).2 !! id = Some d.
Proof.
  intros Hd Hst.
  assert (Hnp : state_eqb (st_state (md_status d)) Paused = false) by (rewrite Hst; done).
  split_and!.
  - unfold resume. rewrite Hd, Hnp. reflexivity.
  - apply ResumeFacts.stopped_elem with id; [done|]. by rewrite Hst.
  - by rewrite Hst.
  - reflexivity.
  - apply ResumeFacts.resume_each_keeps_unpaused; done.
Qed.

Lemma resume_rejects_failed_download_witness :
  let e := (task_failed (engine_with Connecting []) "id1" "Network" "timed out" true).2 in
  let d := mkManaged (status_of "archive.zip" (Error "Network" "timed out" true)) true in
  downloads e !! "id1" = Some d /\
  resume e "id1" = (Err (InvalidState "resume"), e) /\
  downloads (Adapter.resume_all e).2 !! "id1" = Some d.
Proof.
  intros e d.
  assert (Hd : downloads e !! "id1" = Some d) by reflexivity.
  assert (Hst : st_state (md_status d) = Error "Network" "timed out" true) by reflexivity.
  destruct (resume_rejects_failed_download e "id1" d _ _ _ Hd Hst) as (H1 & _ & _ & _ & H5).
  split_and!; assumption.
Defined.

(** Claim C9. [cancel(id, true)] of an HTTP download of [archive.zip]
    saved in [/dl] leaves its [.part] file, whatever the outcome of the
    removals: the segmented downloader writes [/dl/archive.zip.part],
    while [cancel] removes [/dl/archive.zip] and
    [path.with_extension("part")], that is [/dl/archive.part]. *)
Theorem cancel_leaves_part_file (remove_ok : PathBuf -> bool) :
  archive_part = [RootDir; Normal "dl"; Normal "archive.zip.part"] /\
  path_with_extension (join dl_dir (components "archive.zip")) "part" =
    [RootDir; Normal "dl"; Normal "archive.part"] /\
  (cancel remove_ok (engine_with Paused [archive_part]) "id1" true).1 = Ok tt /\
  downloads (cancel remove_ok (engine_with Paused [archive_part]) "id1" true).2 !! "id1" = None /\
  fs (cancel remove_ok (engine_with Paused [archive_part]) "id1" true).2 = [archive_part].
Proof. split_and!; reflexivity. Qed.

(** ** The upsert of [save_download] *)
Import Store.

(** Claim C10. When the table already has a row [old] for the id of
    [status], [save_download] changes only that row. If a parameter fails
    to convert, nothing is written. Otherwise the state columns, the
    progress columns, [filename] and [completed_at] take the new values,
    while [id], [kind], [name], [url], [magnet_uri], [info_hash],
    [save_dir], [user_agent], [referer], [headers_json] and [created_at]
    keep those of [old]. *)
Theorem save_download_keeps_identity_columns (t : Table) (status : DownloadStatus) (old : Row) :
  t !! st_id status = Some old ->
  (row_of_status status = None -> save_download t status = (Err Database, t)) /\
  (forall r, row_of_status status = Some r ->
     (save_download t status).1 = Ok tt /\
     (forall k, k <> st_id status -> (save_download t status).2 !! k = t !! k) /\
     exists new, (save_download t status).2 !! st_id status = Some new /\
       r_state new = r_state r /\ r_state_error_kind new = r_state_error_kind r /\
       r_state_error_message new = r_state_error_message r /\
       r_state_error_retryable new = r_state_error_retryable r /\
       r_total_size new = r_total_size r /\ r_completed_size new = r_completed_size r /\
       r_download_speed new = r_download_speed r /\ r_upload_speed new = r_upload_speed r /\
       r_connections new = r_connections r /\ r_seeders new = r_seeders r /\
       r_peers new = r_peers r /\ r_filename new = r_filename r /\
       r_completed_at new = r_completed_at r /\
       r_id new = r_id old /\ r_kind new = r_kind old /\ r_name new = r_name old /\
       r_url new = r_url old /\ r_magnet_uri new = r_magnet_uri old /\
       r_info_hash new = r_info_hash old /\ r_save_dir new = r_save_dir old /\
       r_user_agent new = r_user_agent old /\ r_referer new = r_referer old /\
       r_headers_json new = r_headers_json old /\ r_created_at new = r_created_at old).
Proof.
  intros Ht. unfold save_download. split.
  - intros ->. reflexivity.
  - intros r Hr. rewrite Hr.
    assert (Hid : r_id r = st_id status).
    { revert Hr. unfold row_of_status.
      destruct (state_columns (st_state status)) as [[[? ?] ?] ?].
      destruct (total_size (st_progress status)) as [x|]; simpl;
        [destruct (u64_to_sql x); simpl|]; intros; simplify_eq; reflexivity. }
    unfold insert_or_update. rewrite Hid, Ht. simpl. split; [reflexivity|split].
    + intros k Hk. apply lookup_insert_ne. congruence.
    + eexists. split; [apply lookup_insert_eq|]. simpl. split_and!; reflexivity.
Qed.

Lemma save_download_keeps_identity_columns_witness :
  (insert_or_update ∅ (mkRow "id1" "http" "paused" None None None (Some 100) 40 0 0 0 0 0
     "archive.zip" None None None "/dl" None None None "[]" "2024-01-01T00:00:00+00:00" None))
    !! st_id (status_of "renamed.zip" Completed) =
    Some (mkRow "id1" "http" "paused" None None None (Some 100) 40 0 0 0 0 0
     "archive.zip" None None None "/dl" None None None "[]" "2024-01-01T00:00:00+00:00" None) /\
  (save_download (insert_or_update ∅ (mkRow "id1" "http" "paused" None None None (Some 100) 40 0 0 0 0 0
     "archive.zip" None None None "/dl" None None None "[]" "2024-01-01T00:00:00+00:00" None))
     (status_of "renamed.zip" Completed)).1 = Ok tt.
Proof.
  assert (Ht : (insert_or_update ∅ (mkRow "id1" "http" "paused" None None None (Some 100) 40 0 0 0 0 0
     "archive.zip" None None None "/dl" None None None "[]" "2024-01-01T00:00:00+00:00" None))
    !! st_id (status_of "renamed.zip" Completed) =
    Some (mkRow "id1" "http" "paused" None None None (Some 100) 40 0 0 0 0 0
     "archive.zip" None None None "/dl" None None None "[]" "2024-01-01T00:00:00+00:00" None))
    by reflexivity.
  split; [exact Ht|].
  destruct (row_of_status (status_of "renamed.zip" Completed)) as [r|] eqn:Hr;
    [|discriminate].
  exact (proj1 (proj2 (save_download_keeps_identity_columns _ _ _ Ht) r Hr)).
Defined.

(** * Further properties of the code *)

(** ** Block arithmetic of pending pieces *)
Module BlockFacts.
Import Pending Manager PieceQueries.

Lemma div_ceil_bounds (L : Z) : 1 <= L ->
  1 <= div_ceil L BLOCK_SIZE /\
  (div_ceil L BLOCK_SIZE - 1) * BLOCK_SIZE < L <= div_ceil L BLOCK_SIZE * BLOCK_SIZE.
Proof.
  intros HL. unfold div_ceil, BLOCK_SIZE.
  pose proof (Z.div_mod (L + 16384 - 1) 16384 ltac:(lia)) as Hd.
  pose proof (Z.mod_pos_bound (L + 16384 - 1) 16384 ltac:(lia)) as Hm.
  set (q := (L + 16384 - 1) / 16384) in *. set (r := (L + 16384 - 1) mod 16384) in *.
  lia.
Qed.

Lemma div_ceil_zero : div_ceil 0 BLOCK_SIZE = 0.
Proof. reflexivity. Qed.

Lemma div_ceil_nonneg (L : Z) : 0 <= L -> 0 <= div_ceil L BLOCK_SIZE.
Proof. intros. unfold div_ceil, BLOCK_SIZE. apply Z.div_pos; lia. Qed.

(** The block sizes of a piece add up to its length. *)
Lemma block_len_sum (L : Z) (n : nat) : forall s : nat,
  (1 <= n)%nat ->
  Z.of_nat (s + n - 1) * BLOCK_SIZE < L <= Z.of_nat (s + n) * BLOCK_SIZE ->
  fold_right (fun k acc => block_len L k + acc) 0 (seq s n) = L - Z.of_nat s * BLOCK_SIZE.
Proof.
  unfold block_len, BLOCK_SIZE.
  induction n as [|n IH]; intros s Hn Hb; [lia|].
  destruct n as [|n].
  - simpl. replace (s + 1 - 1)%nat with s in Hb by lia. lia.
  - change (seq s (S (S n))) with (s :: seq (S s) (S n)). cbn [fold_right].
    rewrite IH by lia. lia.
Qed.

Lemma sum_block_lens (L : Z) : 0 <= L ->
  fold_right (fun k acc => block_len L k + acc) 0
    (seq 0 (Z.to_nat (div_ceil L BLOCK_SIZE))) = L.
Proof.
  intros HL. destruct (Z.eq_dec L 0) as [->|HL0]; [reflexivity|].
  destruct (div_ceil_bounds L ltac:(lia)) as [Hn Hb].
  rewrite block_len_sum by lia. lia.
Qed.

Lemma omap_ext_map {A B} (f : A -> option B) (g : A -> B) (l : list A) :
  (forall x, x ∈ l -> f x = Some (g x)) -> omap f l = map g l.
Proof.
  induction l as [|x l IH]; intros H; simpl; [done|].
  rewrite (H x ltac:(left)). f_equal. apply IH. intros y Hy. apply H. by right.
Qed.

(** For a piece of at most [u32::MAX] bytes built by [PendingPiece::new],
    block [k] spans [k * BLOCK_SIZE] and [block_len]. *)
Lemma block_span_wf (p : PendingPiece) (k : nat) :
  block_size p = BLOCK_SIZE ->
  Z.of_nat (length (blocks p)) = div_ceil (pp_length p) BLOCK_SIZE ->
  0 <= pp_length p < 2 ^ 32 -> (k < length (blocks p))%nat ->
  block_span p k = (Z.of_nat k * BLOCK_SIZE, block_len (pp_length p) k).
Proof.
  intros Hbs Hlen HL Hk. unfold block_span, block_len, wrap32, wrap64, u64_modulus.
  rewrite Hbs.
  destruct (Z.eq_dec (pp_length p) 0) as [E|E].
  { rewrite E, div_ceil_zero in Hlen. lia. }
  destruct (div_ceil_bounds (pp_length p) ltac:(lia)) as [Hn Hb].
  rewrite <- Hlen in Hb. unfold BLOCK_SIZE in *.
  assert (Z.of_nat k * 16384 < pp_length p) by nia.
  rewrite (Z.mod_small (Z.of_nat k * 16384)) by nia.
  destruct (Nat.eqb_spec k (length (blocks p) - 1)) as [Ek|Ek].
  - assert (Z.of_nat k = Z.of_nat (length (blocks p)) - 1) by lia.
    rewrite (Z.mod_small (pp_length p - Z.of_nat k * 16384)) by nia.
    rewrite Z.mod_small by lia. f_equal. lia.
  - f_equal. assert (Z.of_nat k + 1 <= Z.of_nat (length (blocks p)) - 1) by lia. nia.
Qed.

Lemma unrequested_fresh (idx L : Z) : 0 <= L < 2 ^ 32 ->
  unrequested_blocks (PendingPiece_new idx L) =
  map (fun k => (Z.of_nat k * BLOCK_SIZE, block_len L k))
    (seq 0 (Z.to_nat (div_ceil L BLOCK_SIZE))).
Proof.
  intros HL. unfold unrequested_blocks, PendingPiece_new. simpl.
  rewrite length_replicate. apply omap_ext_map. intros k Hk.
  apply elem_of_seq in Hk.
  rewrite lookup_replicate_2 by lia. rewrite lookup_empty. simpl.
  f_equal. apply (block_span_wf (PendingPiece_new idx L)); simpl;
    rewrite ?length_replicate; try lia.
Qed.

End BlockFacts.

Import Pending Manager PieceQueries.

(** The requests [get_block_requests] lists for a piece just started:
    every block [k] of the piece, at offset [k * 16 KiB] with length
    [min(16 KiB, piece_length - offset)], in order; their lengths add up to
    the piece length. *)
Theorem block_requests_after_start (pm : PieceManager) (i : nat) (L : Z) :
  piece_length (pm_info pm) i = Some L -> 0 <= L < 2 ^ 32 ->
  get_block_requests (start_piece pm i).2 i =
    map (fun k => mkBlockRequest (Z.of_nat i) (Z.of_nat k * BLOCK_SIZE) (block_len L k))
      (seq 0 (Z.to_nat (div_ceil L BLOCK_SIZE))) /\
  sum_lengths (get_block_requests (start_piece pm i).2 i) = L.
Proof.
  intros HP HL. unfold start_piece. rewrite HP. simpl.
  unfold get_block_requests, set_pending. simpl. rewrite lookup_insert_eq.
  rewrite BlockFacts.unrequested_fresh by lia. rewrite map_map. split; [reflexivity|].
  unfold sum_lengths. rewrite <- (BlockFacts.sum_block_lens L) at 2 by lia.
  induction (seq 0 _) as [|k l IH]; simpl; [done|]. by rewrite IH.
Qed.

(** ** The shape a pending piece keeps *)
Module PendingInv.
Import Pending Manager PieceQueries.

Lemma filter_is_Some_insert {A} (l : list (option A)) (i : nat) (x : A) :
  length (filter is_Some (<[i := Some x]> l)) =
  match l !! i with
  | Some None => S (length (filter is_Some l))
  | _ => length (filter is_Some l)
  end.
Proof.
  revert i. induction l as [|o l IH]; intros [|i]; simpl; try done.
  - rewrite !filter_cons. destruct o as [y|]; simpl; [done|].
    repeat case_decide; simpl; try done; exfalso;
      match goal with H : ¬ is_Some _ |- _ => apply H; eauto
                    | H : is_Some None |- _ => destruct H; discriminate end.
  - rewrite !filter_cons. case_decide; simpl; rewrite IH; by destruct (l !! i) as [[]|].
Qed.

Lemma run_piece_ops_length (p : PendingPiece) (ops : list PieceOp) :
  pp_length (run_piece_ops p ops) = pp_length p.
Proof.
  unfold run_piece_ops. revert p. induction ops as [|op ops IH]; intros p; simpl; [done|].
  rewrite IH. destruct op as [offset d|]; simpl; [|done].
  unfold add_block. repeat (case_match; simpl; try done).
Qed.

Lemma filter_is_Some_full {A} (l : list (option A)) :
  length (filter is_Some l) = length l <-> Forall is_Some l.
Proof.
  induction l as [|o l IH]; simpl; [split; [constructor|done]|].
  rewrite filter_cons, Forall_cons. pose proof (length_filter is_Some l) as Hle.
  case_decide as Ho; simpl; rewrite <- IH.
  - split; [intros H; split; [done|lia]|intros [_ H]; lia].
  - split; [lia|intros [? _]; done].
Qed.

Lemma concat_blocks_some (bs : list (option (list Z))) :
  is_Some (concat_blocks bs) <-> Forall is_Some bs.
Proof.
  induction bs as [|[b|] bs IH]; simpl.
  - split; [constructor|eauto].
  - rewrite Forall_cons, <- IH. destruct (concat_blocks bs); simpl.
    + split; [intros _; split; eauto|eauto].
    + split; [intros []; discriminate|intros [_ []]; discriminate].
  - rewrite Forall_cons. split; [intros []; discriminate|intros [[] _]; discriminate].
Qed.

Lemma concat_blocks_length (L : Z) (bs : list (option (list Z))) : forall (s : nat) d,
  (forall j b, bs !! j = Some (Some b) -> Z.of_nat (length b) = block_len L (s + j)) ->
  concat_blocks bs = Some d ->
  Z.of_nat (length d) = fold_right (fun k acc => block_len L k + acc) 0 (seq s (length bs)).
Proof.
  induction bs as [|[b|] bs IH]; intros s d Hb Hc; simpl in *.
  - by injection Hc as <-.
  - destruct (concat_blocks bs) as [d'|] eqn:E; simpl in Hc; [|discriminate].
    injection Hc as <-. rewrite length_app, Nat2Z.inj_add.
    rewrite (Hb 0%nat b eq_refl), Nat.add_0_r.
    rewrite (IH (S s) d'); [done| |done].
    intros j b' Hj. rewrite (Hb (S j) b' Hj). f_equal. lia.
  - discriminate.
Qed.

Lemma pending_inv_new (idx len : Z) :
  0 <= len < u64_modulus -> pending_inv (PendingPiece_new idx len).
Proof.
  intros H. split; [by apply PendingPiece_new_wf|]. unfold PendingPiece_new; simpl.
  split.
  - induction (Z.to_nat _); simpl; [done|]. rewrite filter_cons. by case_decide as Hs;
      [destruct Hs; discriminate|].
  - intros i b Hi. apply lookup_replicate in Hi as [? _]. discriminate.
Qed.

Lemma pending_inv_mark (p : PendingPiece) (b : Z) (peer : nat) :
  pending_inv p -> pending_inv (mark_requested p b peer).
Proof. intros (Hwf & Hr & Hs). unfold mark_requested. split_and!; done. Qed.

Lemma pending_inv_add (p : PendingPiece) (offset : Z) (data : list Z) :
  pending_inv p -> 0 <= offset < 2 ^ 32 -> pending_inv (add_block p offset data).2.
Proof.
  intros Hinv Hoff. pose proof Hinv as (Hwf & Hr & Hs). pose proof Hwf as (Hbs & Hlen & HL).
  unfold add_block. rewrite Hbs.
  destruct (Nat.leb_spec (length (blocks p)) (Z.to_nat (offset / BLOCK_SIZE))) as [Hge|Hlt];
    simpl; [done|].
  destruct (Z.eqb_spec (offset mod BLOCK_SIZE) 0) as [Hm|Hm]; simpl; [|done].
  pose proof (add_block_expected_size p offset Hwf ltac:(lia) Hm Hlt) as He.
  rewrite He.
  destruct (Z.eqb_spec (Z.of_nat (length data)) (Z.min BLOCK_SIZE (pp_length p - offset)))
    as [Hd|Hd]; simpl; [|done].
  set (bi := Z.to_nat (offset / BLOCK_SIZE)) in *.
  assert (Hoffe : offset = Z.of_nat bi * BLOCK_SIZE).
  { unfold bi. rewrite Z2Nat.id by (apply Z.div_pos; unfold BLOCK_SIZE; lia).
    pose proof (Z.div_mod offset BLOCK_SIZE ltac:(unfold BLOCK_SIZE; lia)). lia. }
  split_and!.
  - unfold pending_wf; simpl. rewrite length_insert. done.
  - simpl. rewrite filter_is_Some_insert, Hr.
    by destruct (blocks p !! bi) as [[]|].
  - simpl. intros j b Hj. destruct (decide (j = bi)) as [->|Hne].
    + rewrite list_lookup_insert_eq in Hj by done. injection Hj as <-.
      rewrite Hd. unfold block_len. rewrite Hoffe. done.
    + rewrite list_lookup_insert_ne in Hj by done. by apply Hs.
Qed.

Lemma pending_inv_ops (p : PendingPiece) (ops : list PieceOp) :
  pending_inv p -> Forall op_in_range ops -> pending_inv (run_piece_ops p ops).
Proof.
  unfold run_piece_ops. revert p. induction ops as [|op ops IH]; intros p Hp Hops; simpl; [done|].
  apply Forall_cons in Hops as [Hop Hops]. apply IH; [|done].
  destruct op; simpl in *; [by apply pending_inv_add|by apply pending_inv_mark].
Qed.

End PendingInv.

(** A piece built by [PendingPiece::new] and then changed only by
    [add_block] (with [u32] offsets) and [mark_requested] is complete
    exactly when every block slot is filled; [data] returns [Some] exactly
    when the piece is complete, and then it returns exactly
    [piece_length] bytes. *)
Theorem pending_piece_data_length (idx len : Z) (ops : list PieceOp) :
  0 <= len < u64_modulus -> Forall op_in_range ops ->
  let p := run_piece_ops (PendingPiece_new idx len) ops in
  (is_complete p = true <-> Forall is_Some (blocks p)) /\
  (is_Some (data p) <-> is_complete p = true) /\
  (forall d, data p = Some d -> Z.of_nat (length d) = len).
Proof.
  intros HL Hops p.
  pose proof (PendingInv.pending_inv_ops _ ops (PendingInv.pending_inv_new idx len HL) Hops)
    as (Hwf & Hr & Hs).
  fold p in Hwf, Hr, Hs.
  assert (Hlen : pp_length p = len) by (unfold p; by rewrite PendingInv.run_piece_ops_length).
  assert (Hc : is_complete p = true <-> Forall is_Some (blocks p)).
  { unfold is_complete. rewrite Nat.eqb_eq, Hr. apply PendingInv.filter_is_Some_full. }
  split; [exact Hc|split].
  - unfold data. destruct (is_complete p) eqn:E; simpl.
    + split; [done|intros _].
      destruct (proj2 (PendingInv.concat_blocks_some (blocks p)) (proj1 Hc eq_refl)) as [d ->].
      simpl. eauto.
    + split; [intros []; discriminate|discriminate].
  - intros d. unfold data. destruct (is_complete p); simpl; [|discriminate].
    destruct (concat_blocks (blocks p)) as [d'|] eqn:E; simpl; [|discriminate].
    intros [= <-].
    pose proof (PendingInv.concat_blocks_length (pp_length p) (blocks p) 0 d'
                  (fun j b H => Hs j b H) E) as Hl.
    destruct Hwf as (_ & Hn & HL').
    assert (Hn' : length (blocks p) = Z.to_nat (div_ceil (pp_length p) BLOCK_SIZE)) by lia.
    rewrite Hn', BlockFacts.sum_block_lens in Hl by lia.
    rewrite length_take. lia.
Qed.

Lemma block_requests_after_start_witness :
  piece_length (pm_info (PieceManager_new Samples.two_piece_info [Normal "dl"])) 0 = Some 40000 /\
  0 <= 40000 < 2 ^ 32 /\
  get_block_requests (start_piece (PieceManager_new Samples.two_piece_info [Normal "dl"]) 0).2 0 =
    [mkBlockRequest 0 0 16384; mkBlockRequest 0 16384 16384; mkBlockRequest 0 32768 7232].
Proof.
  split; [reflexivity|split; [lia|]].
  rewrite (proj1 (block_requests_after_start
                    (PieceManager_new Samples.two_piece_info [Normal "dl"]) 0 40000
                    eq_refl ltac:(lia))).
  reflexivity.
Defined.

Lemma pending_piece_data_length_witness :
  0 <= 5 < u64_modulus /\
  Forall op_in_range [PMarkRequested 0 1; PAddBlock 0 [1; 2; 3; 4; 5]] /\
  data (run_piece_ops (PendingPiece_new 1 5)
          [PMarkRequested 0 1; PAddBlock 0 [1; 2; 3; 4; 5]]) = Some [1; 2; 3; 4; 5] /\
  Z.of_nat (length [1; 2; 3; 4; 5]) = 5.
Proof.
  assert (H1 : 0 <= 5 < u64_modulus) by (unfold u64_modulus; lia).
  assert (H2 : Forall op_in_range [PMarkRequested 0 1; PAddBlock 0 [1; 2; 3; 4; 5]]).
  { constructor; [exact I|]. constructor; [simpl; lia|constructor]. }
  split; [exact H1|split; [exact H2|split; [reflexivity|]]].
  apply (proj2 (proj2 (pending_piece_data_length 1 5 _ H1 H2))). reflexivity.
Defined.

(** ** Requests offered by a pending piece *)
Module RequestFacts.
Import Pending Manager PieceQueries.

Lemma elem_unrequested (p : PendingPiece) (o l : Z) :
  (o, l) ∈ unrequested_blocks p <->
  exists i, (i < length (blocks p))%nat /\ blocks p !! i = Some None /\
    requested_blocks p !! wrap32 (Z.of_nat i) = None /\ block_span p i = (o, l).
Proof.
  unfold unrequested_blocks. rewrite list_elem_of_omap. split.
  - intros (i & Hi%elem_of_seq & Hf). exists i.
    destruct (blocks p !! i) as [[]|] eqn:E; try discriminate.
    case_bool_decide as Hr; [discriminate|].
    assert (block_span p i = (o, l)) by congruence.
    split_and!; [lia|done| |done].
    destruct (requested_blocks p !! _) eqn:?; [exfalso; apply Hr; eauto|done].
  - intros (i & Hi & Hb & Hr & Hs). exists i. split; [apply elem_of_seq; lia|].
    rewrite Hb, Hr. simpl. by rewrite Hs.
Qed.

End RequestFacts.

(** A block offered by [unrequested_blocks] as [(offset, length)] is
    accepted by [add_block] at that offset with that many bytes, and is
    no longer offered afterwards; it is no longer offered either once
    [mark_requested] has recorded its block index [offset / BLOCK_SIZE].
    (For a piece in the shape [PendingPiece::new] gives, shorter than
    4 GiB.) *)
Theorem unrequested_block_accepted (p : PendingPiece) (o l : Z) (data : list Z) (peer : nat) :
  pending_wf p -> pp_length p < 2 ^ 32 -> (o, l) ∈ unrequested_blocks p ->
  Z.of_nat (length data) = l ->
  (add_block p o data).1 = true /\
  ((o, l) ∉ unrequested_blocks (add_block p o data).2) /\
  ((o, l) ∉ unrequested_blocks (mark_requested p (o / BLOCK_SIZE) peer)).
Proof.
  intros Hwf HL32 Hin Hd. pose proof Hwf as (Hbs & Hlen & HL).
  apply RequestFacts.elem_unrequested in Hin as (i & Hi & Hb & Hr & Hs).
  rewrite BlockFacts.block_span_wf in Hs by (done || lia). injection Hs as <- <-.
  assert (Hq : Z.of_nat i * BLOCK_SIZE / BLOCK_SIZE = Z.of_nat i)
    by (apply Z.div_mul; unfold BLOCK_SIZE; lia).
  assert (Hmod : Z.of_nat i * BLOCK_SIZE mod BLOCK_SIZE = 0)
    by (apply Z.mod_mul; unfold BLOCK_SIZE; lia).
  assert (Hdiv : Z.to_nat (Z.of_nat i * BLOCK_SIZE / BLOCK_SIZE) = i) by (rewrite Hq; lia).
  pose proof (add_block_expected_size p (Z.of_nat i * BLOCK_SIZE) Hwf
                ltac:(unfold BLOCK_SIZE; lia) Hmod ltac:(rewrite Hdiv; lia)) as He.
  rewrite Hdiv in He.
  assert (Hi32 : Z.of_nat i < 2 ^ 32).
  { pose proof (BlockFacts.div_ceil_nonneg (pp_length p) ltac:(lia)).
    unfold div_ceil, BLOCK_SIZE in *.
    assert ((pp_length p + 16384 - 1) / 16384 <= 2 ^ 32)
      by (apply Z.div_le_upper_bound; lia). lia. }
  assert (Hadd : add_block p (Z.of_nat i * BLOCK_SIZE) data =
    (true, mkPendingPiece (pp_index p) (pp_length p) (<[i := Some data]> (blocks p))
             (block_size p) (S (blocks_received p))
             (delete (Z.of_nat i) (requested_blocks p)))).
  { unfold add_block. rewrite Hbs, Hdiv, Hmod, He, Hd, Hb.
    rewrite (proj2 (Nat.leb_gt _ _) Hi). unfold block_len. rewrite !Z.eqb_refl.
    done. }
  rewrite Hadd. split_and!; [done| |].
  - intros Hin. apply RequestFacts.elem_unrequested in Hin as (j & Hj & Hbj & _ & Hsj).
    simpl in Hj, Hbj. rewrite length_insert in Hj.
    rewrite BlockFacts.block_span_wf in Hsj by (simpl; rewrite ?length_insert; done || lia).
    injection Hsj as Hji _. assert (j = i) as -> by (unfold BLOCK_SIZE in Hji; lia).
    rewrite list_lookup_insert_eq in Hbj by done. discriminate.
  - rewrite Hq. intros Hin.
    apply RequestFacts.elem_unrequested in Hin as (j & Hj & _ & Hrj & Hsj).
    simpl in Hj, Hrj.
    rewrite BlockFacts.block_span_wf in Hsj by (simpl; done || lia).
    injection Hsj as Hji _. assert (j = i) as -> by (unfold BLOCK_SIZE in Hji; lia).
    unfold wrap32 in Hrj. rewrite Z.mod_small in Hrj by lia.
    rewrite lookup_insert_eq in Hrj. discriminate.
Qed.

Lemma unrequested_block_accepted_witness :
  pending_wf (PendingPiece_new 0 20000) /\ pp_length (PendingPiece_new 0 20000) < 2 ^ 32 /\
  (16384, 3616) ∈ unrequested_blocks (PendingPiece_new 0 20000) /\
  Z.of_nat (length (replicate 3616 0)) = 3616 /\
  (add_block (PendingPiece_new 0 20000) 16384 (replicate 3616 0)).1 = true.
Proof.
  assert (H1 : pending_wf (PendingPiece_new 0 20000))
    by (apply PendingPiece_new_wf; unfold u64_modulus; lia).
  assert (H2 : pp_length (PendingPiece_new 0 20000) < 2 ^ 32) by (simpl; lia).
  assert (H3 : (16384, 3616) ∈ unrequested_blocks (PendingPiece_new 0 20000))
    by (rewrite BlockFacts.unrequested_fresh by lia; vm_compute; apply list_elem_of_In; simpl; auto).
  assert (H4 : Z.of_nat (length (replicate 3616 0)) = 3616)
    by (rewrite length_replicate; reflexivity).
  split_and!; [exact H1|exact H2|exact H3|exact H4|].
  exact (proj1 (unrequested_block_accepted _ _ _ _ 0 H1 H2 H3 H4)).
Defined.

(** ** Piece selection, endgame mode *)
Module PickFacts.
Import Pending Manager PieceQueries Props MoreProps.

Lemma select_piece_candidate (pm : PieceManager) (peer_has : list bool) (i : nat) :
  length (pm_have pm) = num_pieces pm ->
  select_piece pm peer_has = Some i -> select_candidate pm peer_has i.
Proof.
  intros Hlen. unfold select_piece.
  destruct (sort_by_key snd (select_candidates pm peer_has)) as [|[j a] l] eqn:E;
    [discriminate|]. intros [= <-].
  assert (Hin : (j, a) ∈ select_candidates pm peer_has).
  { rewrite <- (SelectFacts.sort_by_key_perm snd), E. left. }
  apply elem_of_select_candidates in Hin as [Hc _]; done.
Qed.

Lemma filter_full {A} (P : A -> Prop) `{!forall x, Decision (P x)} (l : list A) :
  length (filter P l) = length l <-> Forall P l.
Proof.
  induction l as [|x l IH]; simpl; [split; [constructor|done]|].
  rewrite filter_cons, Forall_cons. pose proof (length_filter P l).
  case_decide; simpl; rewrite <- IH.
  - split; [intros; split; [done|lia]|intros [_ ?]; lia].
  - split; [lia|intros [? _]; done].
Qed.

Lemma filter_empty {A} (P : A -> Prop) `{!forall x, Decision (P x)} (l : list A) :
  filter P l = [] <-> Forall (fun x => ~ P x) l.
Proof.
  induction l as [|x l IH]; simpl; [split; [constructor|done]|].
  rewrite filter_cons, Forall_cons, <- IH. case_decide; split; try done.
  - intros [? _]. done.
  - intros [_ ?]. done.
Qed.

Lemma endgame_remaining_filter (bits : list bool) (idx : list nat) :
  Forall (fun i => i < length bits)%nat idx ->
  endgame_remaining bits idx = Some (filter (fun i => bits !! i = Some false) idx).
Proof.
  induction idx as [|i idx IH]; intros Hidx; simpl; [done|].
  apply Forall_cons in Hidx as [Hi Hidx].
  destruct (lookup_lt_is_Some_2 bits i Hi) as [h Hh]. rewrite Hh, IH by done.
  rewrite filter_cons, Hh. destruct h; case_decide; try congruence; done.
Qed.

Lemma missing_pieces_nil (pm : PieceManager) :
  length (pm_have pm) = num_pieces pm ->
  missing_pieces pm = [] <-> pm_is_complete pm = true.
Proof.
  intros Hlen. unfold missing_pieces, pm_is_complete, count_ones.
  rewrite filter_empty, Forall_seq, Nat.eqb_eq, <- Hlen, filter_full, Forall_lookup.
  split.
  - intros H i b Hb. pose proof (lookup_lt_Some _ _ _ Hb). destruct b; [done|].
    exfalso. apply (H i); [lia|done].
  - intros H j Hj Hf. specialize (H j false Hf). discriminate.
Qed.

Lemma concat_perm {A} (l1 l2 : list (list A)) : l1 ≡ₚ l2 -> concat l1 ≡ₚ concat l2.
Proof.
  induction 1 as [|x l1 l2 _ IH|x y l|l1 l2 l3 _ IH1 _ IH2]; simpl.
  - done.
  - by rewrite IH.
  - by rewrite !(assoc app), (Permutation_app_comm y x).
  - by rewrite IH1, IH2.
Qed.

Lemma piece_endgame_requests_mark (p : PendingPiece) (b : Z) (peer : nat) :
  piece_endgame_requests
    (mkPendingPiece (pp_index p) (pp_length p) (blocks p) (block_size p)
       (blocks_received p) (<[b := peer]> (requested_blocks p))) =
  piece_endgame_requests p.
Proof. done. Qed.

End PickFacts.

(** A piece [select_piece] returns is one [need_piece] reports as
    needed and [have_piece] as missing; [start_piece] then succeeds for
    it, after which [need_piece] reports it as not needed and
    [select_piece] no longer returns it. *)
Theorem selected_piece_needed (pm : PieceManager) (peer_has : list bool) (i : nat) :
  length (pm_have pm) = num_pieces pm ->
  select_piece pm peer_has = Some i ->
  need_piece pm i = Some true /\ have_piece pm i = false /\
  is_Some (start_piece pm i).1 /\
  need_piece (start_piece pm i).2 i = Some false /\
  select_piece (start_piece pm i).2 peer_has <> Some i.
Proof.
  intros Hlen Hsel.
  destruct (PickFacts.select_piece_candidate pm peer_has i Hlen Hsel) as (Hi & Hh & Hp & _).
  assert (Hn : need_piece pm i = Some true).
  { unfold need_piece. rewrite (proj2 (Nat.leb_gt _ _) Hi), Hh, Hp. done. }
  assert (HL : exists L, piece_length (pm_info pm) i = Some L).
  { unfold piece_length. unfold num_pieces in Hi.
    rewrite (proj2 (Nat.ltb_lt _ _) Hi). eauto. }
  destruct HL as [L HL].
  unfold start_piece. rewrite HL. simpl.
  split_and!; [done|unfold have_piece; by rewrite Hh|eauto| |].
  - unfold need_piece, set_pending, num_pieces in *. simpl.
    rewrite (proj2 (Nat.leb_gt _ _) Hi), Hh, lookup_insert_eq. done.
  - intros Hsel'.
    apply PickFacts.select_piece_candidate in Hsel' as (_ & _ & Hp' & _); [|done].
    simpl in Hp'. rewrite lookup_insert_eq in Hp'. discriminate.
Qed.

(** With [have] holding one bit per piece and fewer than [2^32] pieces,
    [endgame_pieces] lists every piece whose bit is clear, pending or not,
    when there are at most 10 of them, and nothing otherwise; the list is
    empty exactly when [is_complete] holds or more than 10 are missing. *)
Theorem endgame_pieces_missing (pm : PieceManager) :
  length (pm_have pm) = num_pieces pm -> Z.of_nat (num_pieces pm) < 2 ^ 32 ->
  endgame_pieces pm =
    Some (if (length (missing_pieces pm) <=? 10)%nat then missing_pieces pm else []) /\
  (missing_pieces pm = [] <-> pm_is_complete pm = true).
Proof.
  intros Hlen Hn. split; [|by apply PickFacts.missing_pieces_nil].
  unfold endgame_pieces, wrap32.
  rewrite Z.mod_small by lia. rewrite Nat2Z.id.
  rewrite PickFacts.endgame_remaining_filter.
  - done.
  - apply Forall_seq. lia.
Qed.

(** [endgame_requests] covers every request [get_block_requests] offers
    for a pending piece whose [index] is its key, and marking a block as
    requested leaves the endgame requests unchanged (up to the order of
    the map's iteration). *)
Theorem endgame_requests_cover (pm : PieceManager) (k : nat) (p : PendingPiece)
    (b : Z) (peer : nat) :
  pm_pending pm !! k = Some p -> pp_index p = Z.of_nat k ->
  (forall r, r ∈ get_block_requests pm k -> r ∈ endgame_requests pm) /\
  endgame_requests (mark_block_requested pm k b peer) ≡ₚ endgame_requests pm.
Proof.
  intros Hk Hidx. split.
  - intros r. unfold get_block_requests. rewrite Hk. intros Hr.
    apply list_elem_of_fmap in Hr as [[o l] [-> Hol]].
    apply RequestFacts.elem_unrequested in Hol as (i & Hi & Hb & _ & Hs).
    unfold endgame_requests. apply list_elem_of_In, in_concat.
    exists (piece_endgame_requests p). split.
    + apply list_elem_of_In, list_elem_of_fmap. exists (k, p). split; [done|].
      by apply elem_of_map_to_list.
    + apply list_elem_of_In, list_elem_of_omap. exists i.
      split; [apply elem_of_seq; lia|]. rewrite Hb, Hs, Hidx. done.
  - unfold endgame_requests, mark_block_requested, set_pending. simpl.
    assert (Ha : alter (fun p =>
        mkPendingPiece (pp_index p) (pp_length p) (blocks p) (block_size p)
          (blocks_received p) (<[b := peer]> (requested_blocks p))) k (pm_pending pm) =
      <[k := mkPendingPiece (pp_index p) (pp_length p) (blocks p) (block_size p)
               (blocks_received p) (<[b := peer]> (requested_blocks p))]>
        (delete k (pm_pending pm))).
    { apply map_eq. intros j. rewrite lookup_alter.
      destruct (decide (j = k)) as [->|Hne].
      - rewrite decide_True, lookup_insert_eq, Hk by done. done.
      - rewrite decide_False, lookup_insert_ne, lookup_delete_ne by done. done. }
    rewrite Ha.
    set (f := fun kp : nat * PendingPiece => piece_endgame_requests kp.2).
    set (p' := mkPendingPiece (pp_index p) (pp_length p) (blocks p) (block_size p)
                 (blocks_received p) (<[b := peer]> (requested_blocks p))).
    transitivity (concat (map f ((k, p') :: map_to_list (delete k (pm_pending pm))))).
    { apply PickFacts.concat_perm, Permutation_map, map_to_list_insert, lookup_delete_eq. }
    transitivity (concat (map f ((k, p) :: map_to_list (delete k (pm_pending pm))))).
    { simpl. unfold f at 1 3; simpl. unfold p'. by rewrite PickFacts.piece_endgame_requests_mark. }
    apply PickFacts.concat_perm, Permutation_map, map_to_list_delete, Hk.
Qed.

Lemma selected_piece_needed_witness :
  length (pm_have (PieceManager_new Samples.two_piece_info [Normal "dl"])) =
    num_pieces (PieceManager_new Samples.two_piece_info [Normal "dl"]) /\
  select_piece (PieceManager_new Samples.two_piece_info [Normal "dl"]) [true; true] = Some 0%nat /\
  need_piece (start_piece (PieceManager_new Samples.two_piece_info [Normal "dl"]) 0).2 0 =
    Some false.
Proof.
  assert (H1 : length (pm_have (PieceManager_new Samples.two_piece_info [Normal "dl"])) =
                 num_pieces (PieceManager_new Samples.two_piece_info [Normal "dl"]))
    by reflexivity.
  assert (H2 : select_piece (PieceManager_new Samples.two_piece_info [Normal "dl"])
                 [true; true] = Some 0%nat) by reflexivity.
  split_and!; [exact H1|exact H2|].
  exact (proj1 (proj2 (proj2 (proj2 (selected_piece_needed _ _ _ H1 H2))))).
Defined.

Lemma endgame_pieces_missing_witness :
  length (pm_have (PieceManager_new Samples.two_piece_info [Normal "dl"])) =
    num_pieces (PieceManager_new Samples.two_piece_info [Normal "dl"]) /\
  Z.of_nat (num_pieces (PieceManager_new Samples.two_piece_info [Normal "dl"])) < 2 ^ 32 /\
  endgame_pieces (PieceManager_new Samples.two_piece_info [Normal "dl"]) = Some [0%nat; 1%nat].
Proof.
  assert (H1 : length (pm_have (PieceManager_new Samples.two_piece_info [Normal "dl"])) =
                 num_pieces (PieceManager_new Samples.two_piece_info [Normal "dl"]))
    by reflexivity.
  assert (H2 : Z.of_nat (num_pieces (PieceManager_new Samples.two_piece_info [Normal "dl"]))
                 < 2 ^ 32) by (vm_compute; reflexivity).
  split_and!; [exact H1|exact H2|].
  rewrite (proj1 (endgame_pieces_missing _ H1 H2)). reflexivity.
Defined.

Lemma endgame_requests_cover_witness :
  pm_pending (start_piece (PieceManager_new Samples.two_piece_info [Normal "dl"]) 0).2 !! 0%nat =
    Some (PendingPiece_new 0 40000) /\
  pp_index (PendingPiece_new 0 40000) = Z.of_nat 0 /\
  endgame_requests
    (mark_block_requested (start_piece (PieceManager_new Samples.two_piece_info [Normal "dl"]) 0).2
       0 0 1) ≡ₚ
  endgame_requests (start_piece (PieceManager_new Samples.two_piece_info [Normal "dl"]) 0).2.
Proof.
  assert (H1 : pm_pending (start_piece (PieceManager_new Samples.two_piece_info [Normal "dl"]) 0).2
                 !! 0%nat = Some (PendingPiece_new 0 40000)) by reflexivity.
  assert (H2 : pp_index (PendingPiece_new 0 40000) = Z.of_nat 0) by reflexivity.
  split_and!; [exact H1|exact H2|].
  exact (proj2 (endgame_requests_cover _ 0 _ 0 1 H1 H2)).
Defined.

(** ** Availability counts *)
Module AvailFacts.
Import Pending Manager.

Definition bump (add : bool) (a : Z) : Z :=
  if add then u32_saturating_add1 a else u32_saturating_sub1 a.

Lemma update_availability_aux_spec (peer : list bool) : forall av i add,
  match update_availability_aux av peer i add with
  | None => exists j, peer !! j = Some true /\ (length av <= i + j)%nat
  | Some av' =>
      length av' = length av /\
      (forall j, peer !! j = Some true -> (i + j < length av)%nat) /\
      forall j, av' !! j =
        (if bool_decide (i <= j)%nat && bool_decide (peer !! (j - i)%nat = Some true)
         then bump add else id) <$> av !! j
  end.
Proof.
  induction peer as [|h rest IH]; intros av i add; simpl.
  - split_and!; [done|intros j Hj; rewrite lookup_nil in Hj; discriminate|].
    intros j. rewrite andb_false_r. by destruct (av !! j).
  - destruct h.
    + destruct (av !! i) as [a|] eqn:Ea.
      * specialize (IH (<[i := bump add a]> av) (S i) add). unfold bump in IH.
        destruct (update_availability_aux _ rest (S i) add) as [av'|].
        -- destruct IH as (Hl & Hb & Hp). rewrite length_insert in Hl, Hb.
           split_and!; [done| |].
           ++ intros [|j] Hj; [apply lookup_lt_Some in Ea; lia|].
              simpl in Hj. specialize (Hb j Hj). lia.
           ++ intros j. rewrite Hp. destruct (decide (j = i)) as [->|Hne].
              ** rewrite list_lookup_insert_eq by (apply lookup_lt_Some in Ea; lia).
                 rewrite Ea. replace (i - i)%nat with 0%nat by lia. simpl.
                 rewrite (bool_decide_false (S i <= i)%nat), (bool_decide_true (i <= i)%nat)
                   by lia. done.
              ** rewrite list_lookup_insert_ne by done.
                 destruct (Nat.le_gt_cases i j) as [Hij|Hij].
                 --- rewrite (bool_decide_true (i <= j)%nat), (bool_decide_true (S i <= j)%nat)
                       by lia.
                     replace (j - i)%nat with (S (j - S i)) by lia. done.
                 --- rewrite (bool_decide_false (i <= j)%nat), (bool_decide_false (S i <= j)%nat)
                       by lia. done.
        -- destruct IH as [j [Hj Hl]]. exists (S j). rewrite length_insert in Hl.
           split; [done|lia].
      * exists 0%nat. split; [done|]. apply lookup_ge_None in Ea. lia.
    + specialize (IH av (S i) add).
      destruct (update_availability_aux av rest (S i) add) as [av'|].
      * destruct IH as (Hl & Hb & Hp). split_and!; [done| |].
        -- intros [|j] Hj; [discriminate|]. simpl in Hj. specialize (Hb j Hj). lia.
        -- intros j. rewrite Hp. destruct (Nat.le_gt_cases (S i) j) as [Hij|Hij].
           ++ rewrite (bool_decide_true (S i <= j)%nat), (bool_decide_true (i <= j)%nat)
                by lia.
              replace (j - i)%nat with (S (j - S i)) by lia. done.
           ++ rewrite (bool_decide_false (S i <= j)%nat) by lia. simpl.
              destruct (decide (j = i)) as [->|Hne].
              ** replace (i - i)%nat with 0%nat by lia. simpl.
                 rewrite andb_false_r. done.
              ** rewrite (bool_decide_false (i <= j)%nat) by lia. done.
      * destruct IH as [j [Hj Hl]]. exists (S j). split; [done|lia].
Qed.

End AvailFacts.

(** [update_availability] panics (modelled as [None]) exactly when the
    peer's bitfield has a set bit at an index past the end of
    [piece_availability]. Otherwise it changes only
    [piece_availability]: every count whose bit is set goes up by one
    (saturating at [u32::MAX]) when [add] holds and down by one
    (saturating at 0) otherwise, and every other count stays. *)
Theorem update_availability_counts (pm : PieceManager) (peer_pieces : list bool) (add : bool) :
  (update_availability pm peer_pieces add = None <->
     exists j, peer_pieces !! j = Some true /\ (length (pm_availability pm) <= j)%nat) /\
  forall pm', update_availability pm peer_pieces add = Some pm' ->
    pm' = mkPM (pm_info pm) (pm_save_dir pm) (pm_have pm) (pm_pending pm)
            (pm_verified_count pm) (pm_verified_bytes pm) (pm_availability pm') /\
    forall j, pm_availability pm' !! j =
      (fun a => if bool_decide (peer_pieces !! j = Some true) then
                  (if add then u32_saturating_add1 a else u32_saturating_sub1 a)
                else a) <$> pm_availability pm !! j.
Proof.
  pose proof (AvailFacts.update_availability_aux_spec peer_pieces (pm_availability pm) 0 add)
    as Hs.
  unfold update_availability.
  destruct (update_availability_aux (pm_availability pm) peer_pieces 0 add) as [av'|]; simpl.
  - destruct Hs as (_ & Hb & Hp). split.
    + split; [discriminate|]. intros [j [Hj Hl]]. specialize (Hb j Hj). lia.
    + intros pm' [= <-]. split; [done|]. intros j. rewrite Hp.
      rewrite bool_decide_true by lia. rewrite Nat.sub_0_r. simpl.
      destruct (pm_availability pm !! j); [|done]. simpl.
      unfold AvailFacts.bump. by case_bool_decide.
  - split; [split; [intros _|done]|intros ? [=]].
    destruct Hs as [j [Hj Hl]]. exists j. split; [done|lia].
Qed.

(** When every count is below [u32::MAX], removing a peer's bitfield
    right after adding it gives back the same piece manager. *)
Theorem update_availability_add_remove (pm pm1 : PieceManager) (peer_pieces : list bool) :
  Forall (fun a => 0 <= a < 2 ^ 32 - 1) (pm_availability pm) ->
  update_availability pm peer_pieces true = Some pm1 ->
  update_availability pm1 peer_pieces false = Some pm.
Proof.
  intros Hb H1.
  destruct (update_availability_counts pm peer_pieces true) as [HN1 HS1].
  destruct (HS1 pm1 H1) as [Hpm1 Hav1].
  destruct (update_availability_counts pm1 peer_pieces false) as [HN2 HS2].
  destruct (update_availability pm1 peer_pieces false) as [pm2|] eqn:E2.
  - destruct (HS2 pm2 eq_refl) as [Hpm2 Hav2]. f_equal.
    rewrite Hpm2, Hpm1. simpl. destruct pm as [? ? ? ? ? ? av]. simpl in *. f_equal.
    apply list_eq. intros j. rewrite Hav2, Hpm1. simpl. rewrite Hav1.
    destruct (av !! j) as [a|] eqn:Ea; [|done]. simpl.
    rewrite Forall_lookup in Hb. specialize (Hb j a Ea).
    case_bool_decide; [|done]. unfold u32_saturating_add1, u32_saturating_sub1. f_equal. lia.
  - exfalso. apply proj1 in HN2. destruct (HN2 eq_refl) as [j [Hj Hl]].
    assert (Hlen : length (pm_availability pm1) = length (pm_availability pm)).
    { assert (Hl1 : forall j, is_Some (pm_availability pm1 !! j) <-> is_Some (pm_availability pm !! j)).
      { intros j'. rewrite Hav1. by destruct (pm_availability pm !! j'). }
      apply Nat.le_antisymm; apply Nat.nlt_ge; intros Hlt.
      - destruct (proj1 (Hl1 (length (pm_availability pm)))) as [x Hx].
        { apply lookup_lt_is_Some_2. done. }
        apply lookup_lt_Some in Hx. lia.
      - destruct (proj2 (Hl1 (length (pm_availability pm1)))) as [x Hx].
        { apply lookup_lt_is_Some_2. done. }
        apply lookup_lt_Some in Hx. lia. }
    assert (HN1' : update_availability pm peer_pieces true = None).
    { apply HN1. exists j. split; [done|lia]. }
    congruence.
Qed.

Lemma update_availability_add_remove_witness :
  Forall (fun a => 0 <= a < 2 ^ 32 - 1)
    (pm_availability (PieceManager_new Samples.two_piece_info [Normal "dl"])) /\
  update_availability (PieceManager_new Samples.two_piece_info [Normal "dl"]) [true] true =
    Some (mkPM Samples.two_piece_info [Normal "dl"] [false; false] ∅ 0 0 [1; 0]) /\
  update_availability (mkPM Samples.two_piece_info [Normal "dl"] [false; false] ∅ 0 0 [1; 0])
    [true] false = Some (PieceManager_new Samples.two_piece_info [Normal "dl"]).
Proof.
  assert (H1 : Forall (fun a => 0 <= a < 2 ^ 32 - 1)
                 (pm_availability (PieceManager_new Samples.two_piece_info [Normal "dl"]))).
  { simpl. repeat constructor; lia. }
  assert (H2 : update_availability (PieceManager_new Samples.two_piece_info [Normal "dl"])
                 [true] true =
               Some (mkPM Samples.two_piece_info [Normal "dl"] [false; false] ∅ 0 0 [1; 0]))
    by reflexivity.
  split_and!; [exact H1|exact H2|].
  exact (update_availability_add_remove _ _ _ H1 H2).
Defined.

(** ** The segments table *)
Module StoreFacts.
Import Path Types Manager Store StoreLoad.

Lemma wrap64_i64 (x : Z) : 0 <= x < 2 ^ 64 -> wrap64 (i64_of_u64 x) = x.
Proof.
  intros H. unfold wrap64, i64_of_u64, u64_modulus.
  rewrite (Z.mod_small x) by lia.
  destruct (Z.ltb_spec x (2 ^ 63)).
  - apply Z.mod_small. lia.
  - replace (x - 2 ^ 64) with (x + (-1) * 2 ^ 64) by lia.
    rewrite Z_mod_plus_full. apply Z.mod_small. lia.
Qed.

Lemma i64_small (x : Z) : 0 <= x < 2 ^ 63 -> i64_of_u64 x = x.
Proof.
  intros H. unfold i64_of_u64. rewrite Z.mod_small by lia.
  destruct (Z.ltb_spec x (2 ^ 63)); lia.
Qed.

Lemma segment_row_id (id : string) (s : StoredSegment) : sr_download_id (segment_row id s) = id.
Proof. unfold segment_row. by destruct (seg_state s). Qed.

Lemma segment_row_index (id : string) (s : StoredSegment) : sr_index (segment_row id s) = idx64 s.
Proof. unfold segment_row. by destruct (seg_state s). Qed.

Lemma segment_of_row_row (id : string) (s : StoredSegment) :
  seg_in_range s -> segment_of_row (segment_row id s) = segment_reloaded s.
Proof.
  intros (Hi & Hs & He & Hd & Hst).
  unfold segment_of_row, segment_row, segment_reloaded.
  destruct (seg_state s) as [| | |err r]; simpl;
    rewrite !wrap64_i64 by lia; try done.
  rewrite Z.mod_small by lia. done.
Qed.

Lemma insert_segments_spec (id : string) (segs : list StoredSegment) : forall db,
  db_downloads (insert_segments db id segs).2 = db_downloads db /\
  (exists k, db_segments (insert_segments db id segs).2 =
             db_segments db ++ map (segment_row id) (take k segs)) /\
  ((insert_segments db id segs).1 = Ok tt ->
     db_segments (insert_segments db id segs).2 = db_segments db ++ map (segment_row id) segs) /\
  ((insert_segments db id segs).1 = Ok tt <->
     (segs = [] \/ is_Some (db_downloads db !! id)) /\ NoDup (map idx64 segs) /\
     forall q, q ∈ db_segments db -> sr_download_id q = id -> sr_index q ∉ map idx64 segs).
Proof.
  induction segs as [|s rest IH]; intros db; simpl.
  - split_and!; [done|exists 0%nat; by rewrite app_nil_r|by rewrite app_nil_r|].
    split; [intros _; split_and!; [by left|constructor|intros q _ _ Hq; inversion Hq]|done].
  - unfold insert_segment_row. rewrite segment_row_id, segment_row_index.
    case_bool_decide as Hd.
    + destruct (existsb _ (db_segments db)) eqn:Ex; simpl.
      * split_and!; [done|exists 0%nat; by rewrite app_nil_r|discriminate|].
        split; [discriminate|]. intros (_ & _ & Hq).
        apply existsb_exists in Ex as [q [Hqin%list_elem_of_In Hf]].
        apply andb_true_iff in Hf as [Hid Hix].
        apply String.eqb_eq in Hid. apply Z.eqb_eq in Hix.
        exfalso. apply (Hq q Hqin Hid). rewrite Hix. left.
      * destruct (IH (mkDb (db_downloads db) (db_segments db ++ [segment_row id s])))
          as (Hdl & [k Hk] & Hok & Hiff).
        simpl in Hdl, Hk, Hok, Hiff.
        split_and!; [done| | |].
        { exists (S k). rewrite Hk. simpl. by rewrite <- (assoc app). }
        { intros H. rewrite (Hok H). simpl. by rewrite <- (assoc app). }
        rewrite Hiff. change (map idx64 (s :: rest)) with (idx64 s :: map idx64 rest).
        rewrite NoDup_cons.
        assert (Hnot : forall q, q ∈ db_segments db -> sr_download_id q = id -> sr_index q <> idx64 s).
        { intros q Hq Hid Hix. apply not_true_iff_false in Ex. apply Ex.
          apply existsb_exists. exists q. split; [by apply list_elem_of_In|].
          rewrite Hid, Hix, String.eqb_refl, Z.eqb_refl. done. }
        split.
        -- intros (_ & Hnd & Hq). split; [by right|]. split; [split; [|done]|].
           ++ intros Hin. apply (Hq (segment_row id s)).
              ** apply elem_of_app. right. left.
              ** apply segment_row_id.
              ** by rewrite segment_row_index.
           ++ intros q Hq' Hid Hin. apply elem_of_cons in Hin as [Hin|Hin].
              ** by apply (Hnot q Hq' Hid).
              ** apply (Hq q); [apply elem_of_app; by left|done|done].
        -- intros (_ & [Hs Hnd] & Hq). split; [by right|]. split; [done|].
           intros q Hq' Hid Hin. apply elem_of_app in Hq' as [Hq'|Hq'].
           ++ apply (Hq q Hq' Hid). by right.
           ++ apply list_elem_of_singleton in Hq' as ->.
              rewrite segment_row_index in Hin. done.
    + simpl. split_and!; [done|exists 0%nat; by rewrite app_nil_r|discriminate|].
      split; [discriminate|]. intros ([Hnil|Hs] & _). discriminate. done.
Qed.

Lemma filter_segment_rows (id id' : string) (segs : list StoredSegment) :
  filter (fun q => String.eqb (sr_download_id q) id' = true) (map (segment_row id) segs) =
  if String.eqb id id' then map (segment_row id) segs else [].
Proof.
  induction segs as [|s rest IH]; simpl; [by destruct (String.eqb id id')|].
  rewrite filter_cons, segment_row_id, IH.
  destruct (String.eqb id id'); case_decide; done.
Qed.

Lemma filter_after_delete (id id' : string) (rows : list SegmentRow) :
  filter (fun q => String.eqb (sr_download_id q) id' = true)
    (filter (fun q => String.eqb (sr_download_id q) id = false) rows) =
  if String.eqb id id' then []
  else filter (fun q => String.eqb (sr_download_id q) id' = true) rows.
Proof.
  induction rows as [|q rows IH]; [simpl; by destruct (String.eqb id id')|].
  rewrite (filter_cons _ q rows). case_decide as H1.
  - rewrite filter_cons. case_decide as H2.
    + rewrite IH, filter_cons, decide_True by done.
      apply String.eqb_eq in H2. subst id'. by rewrite String.eqb_sym, H1.
    + rewrite IH. destruct (String.eqb id id'); [done|].
      rewrite filter_cons, decide_False by done. done.
  - rewrite IH. destruct (String.eqb id id') eqn:E; [done|].
    rewrite filter_cons, decide_False; [done|].
    apply not_false_iff_true, String.eqb_eq in H1. rewrite H1, E. done.
Qed.

(** [sort_by_key] commutes with a map that keeps the keys. *)
Lemma insert_by_key_map {A B} (k1 : A -> Z) (k2 : B -> Z) (f : A -> B) (x : A) (l : list A) :
  Forall (fun y => k2 (f y) = k1 y) (x :: l) ->
  insert_by_key k2 (f x) (map f l) = map f (insert_by_key k1 x l).
Proof.
  induction l as [|y l IH]; intros Hk; simpl; [done|].
  apply Forall_cons in Hk as [Hx Hk]. apply Forall_cons in Hk as [Hy Hl].
  rewrite Hx, Hy. destruct (k1 x <=? k1 y); simpl; [done|].
  rewrite IH; [done|]. by constructor.
Qed.

Lemma sort_by_key_map {A B} (k1 : A -> Z) (k2 : B -> Z) (f : A -> B) (l : list A) :
  Forall (fun y => k2 (f y) = k1 y) l ->
  sort_by_key k2 (map f l) = map f (sort_by_key k1 l).
Proof.
  induction l as [|x l IH]; intros Hk; [done|].
  pose proof Hk as Hk'. apply Forall_cons in Hk' as [Hx Hl].
  change (sort_by_key k2 (map f (x :: l))) with (insert_by_key k2 (f x) (sort_by_key k2 (map f l))).
  change (sort_by_key k1 (x :: l)) with (insert_by_key k1 x (sort_by_key k1 l)).
  rewrite IH by done. apply insert_by_key_map.
  constructor; [done|]. eapply Permutation_Forall; [|exact Hl].
  symmetry. apply SelectFacts.sort_by_key_perm.
Qed.

End StoreFacts.

Import StoreLoad.

(** For a download whose row exists, [save_segments] with distinct
    indices below [i64::MAX] and values that fit their columns succeeds;
    [load_segments] then returns the segments sorted by index, with
    [Downloading] read back as [Pending] and everything else unchanged.
    The segments of the other downloads are left as they were. *)
Theorem save_segments_round_trip (db : Db) (id : string) (segs : list StoredSegment) :
  is_Some (db_downloads db !! id) -> NoDup (map seg_index segs) -> Forall seg_in_range segs ->
  (save_segments db id segs).1 = Ok tt /\
  load_segments (save_segments db id segs).2 id =
    map segment_reloaded (sort_by_key seg_index segs) /\
  forall id', id' <> id ->
    load_segments (save_segments db id segs).2 id' = load_segments db id'.
Proof.
  intros Hd Hnd Hr.
  assert (Hidx : map idx64 segs = map seg_index segs).
  { apply map_ext_in. intros s Hs. apply list_elem_of_In in Hs.
    rewrite Forall_forall in Hr. destruct (Hr s Hs) as [Hi _].
    unfold idx64. apply StoreFacts.i64_small. lia. }
  destruct (StoreFacts.insert_segments_spec id segs (delete_segment_rows db id))
    as (_ & _ & Hrows & Hiff).
  assert (Hok : (save_segments db id segs).1 = Ok tt).
  { apply Hiff. split_and!; [by right|by rewrite Hidx|].
    intros q Hq Hid. simpl in Hq. apply list_elem_of_filter in Hq as [Hne _].
    rewrite Hid, String.eqb_refl in Hne. discriminate. }
  specialize (Hrows Hok). unfold save_segments in *. simpl in Hrows.
  split_and!; [done| |].
  - unfold load_segments. rewrite Hrows, filter_app, StoreFacts.filter_after_delete,
      StoreFacts.filter_segment_rows, String.eqb_refl. simpl.
    rewrite (StoreFacts.sort_by_key_map seg_index sr_index).
    + rewrite map_map. apply map_ext_in. intros s Hs.
      apply StoreFacts.segment_of_row_row.
      apply list_elem_of_In in Hs. rewrite <- (SelectFacts.sort_by_key_perm seg_index segs) in Hr.
      rewrite Forall_forall in Hr. by apply Hr.
    + eapply Forall_impl; [exact Hr|]. intros s [Hi _].
      rewrite StoreFacts.segment_row_index. unfold idx64. apply StoreFacts.i64_small. lia.
  - intros id' Hne. unfold load_segments. rewrite Hrows, filter_app,
      StoreFacts.filter_after_delete, StoreFacts.filter_segment_rows.
    destruct (String.eqb_spec id id') as [->|_]; [done|]. by rewrite app_nil_r.
Qed.

Lemma save_segments_prefix (db : Db) (id : string) (segs : list StoredSegment) :
  ((save_segments db id segs).1 = Ok tt <->
     (segs = [] \/ is_Some (db_downloads db !! id)) /\ NoDup (map idx64 segs)) /\
  exists k,
    filter (fun q => String.eqb (sr_download_id q) id = true)
      (db_segments (save_segments db id segs).2) = map (segment_row id) (take k segs) /\
    ((save_segments db id segs).1 = Ok tt -> k = length segs).
Proof.
  destruct (StoreFacts.insert_segments_spec id segs (delete_segment_rows db id))
    as (_ & [k Hk] & Hrows & Hiff).
  unfold save_segments. simpl in *.
  assert (Hfilt : forall rows,
      filter (fun q => String.eqb (sr_download_id q) id = true)
        (filter (fun q => String.eqb (sr_download_id q) id = false) (db_segments db) ++
         map (segment_row id) rows) = map (segment_row id) rows).
  { intros rows. rewrite filter_app, StoreFacts.filter_after_delete,
      StoreFacts.filter_segment_rows, String.eqb_refl. done. }
  split.
  - rewrite Hiff. split; [intros (? & ? & _); done|].
    intros [? ?]. split_and!; [done|done|].
    intros q Hq Hid. apply list_elem_of_filter in Hq as [Hne _].
    rewrite Hid, String.eqb_refl in Hne. discriminate.
  - destruct ((insert_segments (delete_segment_rows db id) id segs).1) as [u|e] eqn:Er.
    + destruct u. exists (length segs). rewrite (Hrows eq_refl), Hfilt, firstn_all. done.
    + exists k. rewrite Hk, Hfilt. split; [done|discriminate].
Qed.


(** After [delete_download] the download has no segments left (the
    cascade), [load_download] finds nothing, and a later [save_segments]
    with segments fails on the foreign key and stores none; the other
    downloads keep their segments. *)
Theorem delete_download_cascade (db : Db) (id : string) (segs : list StoredSegment) :
  load_segments (delete_download db id) id = [] /\
  (forall up hp rp now, load_download up hp rp now (delete_download db id) id = Ok None) /\
  (forall id', id' <> id -> load_segments (delete_download db id) id' = load_segments db id') /\
  (segs <> [] ->
     (save_segments (delete_download db id) id segs).1 = Err Database /\
     load_segments (save_segments (delete_download db id) id segs).2 id = []).
Proof.
  split_and!.
  - unfold load_segments, delete_download. simpl.
    assert (Hf := StoreFacts.filter_after_delete id id (db_segments db)).
    rewrite String.eqb_refl in Hf. rewrite Hf. done.
  - intros. unfold load_download, delete_download. cbn [db_downloads].
    assert (Hn : delete id (db_downloads db) !! id = None) by apply lookup_delete_eq.
    by rewrite Hn.
  - intros id' Hne. unfold load_segments, delete_download. simpl.
    rewrite StoreFacts.filter_after_delete.
    destruct (String.eqb_spec id id'); [congruence|done].
  - intros Hs. destruct (save_segments_prefix (delete_download db id) id segs)
      as [Hiff [k [Hk _]]].
    assert (Hnot : (save_segments (delete_download db id) id segs).1 <> Ok tt).
    { rewrite Hiff. intros [[Hn|Hsome] _]; [done|].
      simpl in Hsome.
      assert (Hn : delete id (db_downloads db) !! id = None) by apply lookup_delete_eq.
      rewrite Hn in Hsome. by destruct Hsome. }
    destruct segs as [|s rest]; [done|].
    assert (Hfirst : (save_segments (delete_download db id) id (s :: rest)) =
                     (Err Database, delete_segment_rows (delete_download db id) id)).
    { unfold save_segments. simpl. unfold insert_segment_row.
      rewrite StoreFacts.segment_row_id. simpl.
      assert (Hn : delete id (db_downloads db) !! id = None) by apply lookup_delete_eq.
      rewrite Hn.
      rewrite bool_decide_false by (intros []; discriminate). done. }
    rewrite Hfirst. split; [done|].
    unfold load_segments, delete_segment_rows, delete_download. simpl.
    rewrite StoreFacts.filter_after_delete, String.eqb_refl. done.
Qed.

Lemma save_segments_round_trip_witness :
  let db := (save_download_db (mkDb empty []) (Samples.status_of "archive.zip" Queued)).2 in
  let segs := [mkStoredSegment 1 50 100 20 SegDownloading;
               mkStoredSegment 0 0 50 50 SegCompleted] in
  (save_segments db "id1" segs).1 = Ok tt /\
  load_segments (save_segments db "id1" segs).2 "id1" =
    [mkStoredSegment 0 0 50 50 SegCompleted; mkStoredSegment 1 50 100 20 SegPending].
Proof.
  intros db segs.
  assert (Hd : is_Some (db_downloads db !! "id1")) by (vm_compute; eauto).
  assert (Hn : NoDup (map seg_index segs)) by (simpl; repeat constructor; set_solver).
  assert (Hr : Forall MoreProps.seg_in_range segs).
  { repeat constructor; cbv [MoreProps.seg_in_range]; simpl; lia. }
  destruct (save_segments_round_trip db "id1" segs Hd Hn Hr) as (Hok & Hload & _).
  split; [exact Hok|]. rewrite Hload. reflexivity.
Defined.

(** Saving a status whose id has no row yet, with values that fit the
    columns, succeeds; loading it back gives the same status except that
    the ETA is [None] and the save directory is re-parsed from its text,
    provided the id, the headers JSON and the timestamps parse back to
    themselves. *)
Theorem save_load_download
    (uuid_parse : string -> option string)
    (headers_parse : string -> option (list (string * string)))
    (rfc3339_parse : string -> option string) (now : string)
    (db : Db) (s : DownloadStatus) :
  db_downloads db !! st_id s = None ->
  uuid_parse (st_id s) = Some (st_id s) ->
  headers_parse (headers_json (md_headers (st_metadata s))) = Some (md_headers (st_metadata s)) ->
  rfc3339_parse (st_created_at s) = Some (st_created_at s) ->
  (forall c, st_completed_at s = Some c -> rfc3339_parse c = Some c) ->
  progress_storable (st_progress s) ->
  (save_download_db db s).1 = Ok tt /\
  load_download uuid_parse headers_parse rfc3339_parse now (save_download_db db s).2 (st_id s) =
    Ok (Some (status_reloaded s)).
Proof.
  intros Hnew Hu Hh Hc Hcomp Hp.
  destruct s as [id kind st [tot comp ds us cn sd pr eta] md cr co].
  unfold progress_storable in Hp. simpl in *.
  destruct Hp as (Ht & Hcs & Hds & Hus & Hcn & Hsd & Hpr).
  unfold save_download_db, save_download, row_of_status. simpl.
  destruct (state_columns st) as [[[ss ek] em] er] eqn:Est.
  assert (Htot : exists t', (match tot with None => Some None
                             | Some t => Some <$> u64_to_sql t end) = Some t' /\
                            wrap64 <$> t' = tot).
  { destruct tot as [t|]; [|by exists None].
    exists (Some t). unfold u64_to_sql. rewrite (proj2 (Z.leb_le t (2 ^ 63 - 1)) (proj2 Ht)). simpl.
    split; [done|]. f_equal. unfold wrap64, u64_modulus. apply Z.mod_small. lia. }
  destruct Htot as [t' [-> Ht']]. split; [done|].
  unfold load_download, insert_or_update. simpl. rewrite Hnew.
  assert (Hl : <[id := mkRow id (kind_str kind) ss ek em er t' (i64_of_u64 comp)
              (i64_of_u64 ds) (i64_of_u64 us) (i64_of_u64 cn) (i64_of_u64 sd) (i64_of_u64 pr)
              (md_name md) (md_url md) (md_magnet_uri md) (md_info_hash md)
              (path_to_string (md_save_dir md)) (md_filename md) (md_user_agent md)
              (md_referer md) (headers_json (md_headers md)) cr co]> (db_downloads db) !! id =
             Some (mkRow id (kind_str kind) ss ek em er t' (i64_of_u64 comp)
              (i64_of_u64 ds) (i64_of_u64 us) (i64_of_u64 cn) (i64_of_u64 sd) (i64_of_u64 pr)
              (md_name md) (md_url md) (md_magnet_uri md) (md_info_hash md)
              (path_to_string (md_save_dir md)) (md_filename md) (md_user_agent md)
              (md_referer md) (headers_json (md_headers md)) cr co))
    by apply lookup_insert_eq.
  rewrite Hl. unfold row_to_status. simpl. rewrite Hu. simpl. rewrite Hh, Hc. simpl.
  assert (Hco : co ≫= rfc3339_parse = co).
  { destruct co as [c|]; [by apply Hcomp|done]. }
  rewrite Hco, Ht'.
  rewrite !StoreFacts.wrap64_i64 by lia.
  rewrite !StoreFacts.i64_small by lia.
  rewrite !Z.mod_small by lia.
  assert (Hk : kind_of_str (kind_str kind) = kind) by (destruct kind; reflexivity).
  assert (Hs : state_of_columns ss ek em er = st)
    by (destruct st; simpl in Est; inversion Est; subst; reflexivity).
  rewrite Hk, Hs. unfold status_reloaded. simpl. destruct md. reflexivity.
Qed.

Lemma save_load_download_witness :
  load_download Some (fun _ => Some [("Accept", "*/*")]) Some "now"
    (save_download_db (mkDb empty []) (Samples.status_of "archive.zip" Queued)).2 "id1" =
  Ok (Some (status_reloaded (Samples.status_of "archive.zip" Queued))).
Proof.
  apply (save_load_download Some (fun _ => Some [("Accept", "*/*")]) Some "now"
           (mkDb empty []) (Samples.status_of "archive.zip" Queued)).
  - reflexivity.
  - reflexivity.
  - reflexivity.
  - reflexivity.
  - intros c Hc. discriminate.
  - cbv [progress_storable]. simpl. lia.
Defined.

Module EngineFacts.
Import Path Types Engine.

Lemma elem_of_remove_file (files : list PathBuf) (p q : PathBuf) :
  q ∈ remove_file files p <-> q ∈ files /\ q <> p.
Proof.
  unfold remove_file. rewrite list_elem_of_filter.
  case_bool_decide; simpl; naive_solver.
Qed.

Lemma elem_of_try_remove (remove_ok : PathBuf -> bool) (files : list PathBuf) (p q : PathBuf) :
  q ∈ (if bool_decide (p ∈ files) then (if remove_ok p then remove_file files p else files)
       else files) <->
  q ∈ files /\ (q = p -> remove_ok p = false).
Proof.
  case_bool_decide as Hp; [destruct (remove_ok p) eqn:Er|];
    rewrite ?elem_of_remove_file; naive_solver.
Qed.

End EngineFacts.

Import Engine.

(** [cancel] on an unknown id returns [NotFound] and changes nothing. On
    a known id it returns [Ok], removes exactly that entry from the
    download map and sends one [Removed] event. It only ever deletes
    files, and at most two: [save_dir/filename] and its
    [with_extension("part")]; none when [delete_files] is false. With
    [delete_files], [save_dir/filename] is still there afterwards exactly
    when it was there and its removal failed (the error is dropped). *)
Theorem cancel_removes_entry (remove_ok : PathBuf -> bool) (e : EngineState) (id : string)
    (delete_files : bool) :
  let '(res, e') := cancel remove_ok e id delete_files in
  (downloads e !! id = None -> res = Err NotFound /\ e' = e) /\
  (forall d, downloads e !! id = Some d ->
     let path := join (md_save_dir (st_metadata (md_status d)))
                   (components (default "download" (md_filename (st_metadata (md_status d))))) in
     res = Ok tt /\
     downloads e' = delete id (downloads e) /\
     events e' = events e ++ [EvRemoved id] /\
     (forall p, p ∈ fs e' -> p ∈ fs e) /\
     (forall p, p ∈ fs e -> p ∉ fs e' -> p = path \/ p = path_with_extension path "part") /\
     (delete_files = false -> fs e' = fs e) /\
     (delete_files = true -> (path ∈ fs e' <-> path ∈ fs e /\ remove_ok path = false))).
Proof.
  unfold cancel. destruct (downloads e !! id) as [d|] eqn:Hd.
  - split; [discriminate|]. intros d' Hd'. injection Hd' as <-.
    set (path := join _ _). simpl.
    split_and!; try done.
    + intros p Hp. destruct delete_files; [|done].
      rewrite !EngineFacts.elem_of_try_remove in Hp. naive_solver.
    + intros p Hp Hn. destruct delete_files; [|done].
      rewrite !EngineFacts.elem_of_try_remove in Hn.
      destruct (decide (p = path)); [by left|].
      destruct (decide (p = path_with_extension path "part")); [by right|].
      exfalso. apply Hn. naive_solver.
    + intros ->. done.
    + intros ->. rewrite !EngineFacts.elem_of_try_remove.
      split; [naive_solver|]. intros [Hp Hr]. split_and!; try done.
      intros Heq. by rewrite <- Heq.
  - split; [done|]. intros d' Hd'. discriminate.
Qed.
